(** * gotext: the Locale registry and the package facade

    A shallow embedding of the Locale and facade code of the gotext
    repository.  The sources carry two Locale implementations and two
    package facades next to each other:

    - [LocaleA]: the Locale whose domains live in a [sync.Map]
      (part_000, lines 1-288);
    - [LocaleB]: the Locale whose domains live in a plain Go map guarded
      by the Locale's RWMutex (part_000, lines 289-512);
    - [FacadeA]: the package configuration over a [sync.Map] of Locales
      (part_000, lines 513-931);
    - [FacadeB]: the package configuration over a plain map of Locales
      (part_001).

    Every operation runs in the monad [M]: it yields the list of
    observable events (file probes, parses, lock operations, stores) and
    either a value or a Go run-time panic. *)

From Stdlib Require Import ZArith Ascii String List Lia.
From stdpp Require Import base option list strings pretty gmap fin_maps.

(** ** Values, events and the effect monad *)

(** The variadic [vars ...interface{}] tail of the lookup functions. *)
Inductive gval : Type :=
  | VString (s : string)
  | VInt (z : Z)
  | VBool (b : bool).

(** The two catalog formats [AddDomain] can instantiate: [new(Po)] and
    [new(Mo)]. *)
Inductive kind : Type := Po | Mo.

(** The two RWMutexes of the program: the one embedded in a Locale and
    the one embedded in the package [config]. *)
Inductive mutex : Type := MuLocale | MuConfig.

Inductive event : Type :=
  | EvStat (file : string)               (* os.Stat(file) *)
  | EvParse (k : kind) (file : string)   (* new(k).ParseFile(file) *)
  | EvLock (m : mutex)
  | EvUnlock (m : mutex)
  | EvRLock (m : mutex)
  | EvRUnlock (m : mutex)
  | EvStore (dom : string).              (* a write into a domain map *)

#[global] Instance kind_eq_dec : EqDecision kind.
Proof. solve_decision. Defined.
#[global] Instance mutex_eq_dec : EqDecision mutex.
Proof. solve_decision. Defined.
#[global] Instance event_eq_dec : EqDecision event.
Proof. solve_decision. Defined.

(** A call either returns or panics (a Go run-time panic such as a slice
    bound out of range or a failed type assertion). *)
Inductive outcome (A : Type) : Type :=
  | Ok (a : A)
  | Panic.
Arguments Ok {A} a.
Arguments Panic {A}.

Definition M (A : Type) : Type := (list event * outcome A)%type.

#[global] Instance M_ret : MRet M := λ A a, ([], Ok a).
#[global] Instance M_bind : MBind M := λ A B f m,
  match m with
  | (t, Ok a) => let '(t', r) := f a in (t ++ t', r)
  | (t, Panic) => (t, Panic)
  end.

Definition emit (e : event) : M unit := ([e], Ok tt).
Definition panic {A : Type} : M A := ([], Panic).

Definition trace {A : Type} (m : M A) : list event := m.1.
Definition result {A : Type} (m : M A) : outcome A := m.2.

(** File I/O is what [os.Stat] and [ParseFile] do. *)
Definition is_io (e : event) : bool :=
  match e with
  | EvStat _ | EvParse _ _ => true
  | _ => false
  end.

Definition io_events {A : Type} (m : M A) : list event :=
  List.filter is_io (trace m).

Definition stat_events (t : list event) : list string :=
  omap (λ e, match e with EvStat f => Some f | _ => None end) t.

Definition parse_events (t : list event) : list (kind * string) :=
  omap (λ e, match e with EvParse k f => Some (k, f) | _ => None end) t.

(** ** The Translator interface (translator.go)

    An object behind the interface is its method table.  The lookup
    methods carry the variadic tail that the sync.Map Locale passes on;
    the map-based Locale calls them without one.  [ParseFile] is what
    builds the object, see [disk].  [MarshalBinary], which the sync.Map
    Locale calls on its domains, returns the bytes and whether the error
    is non-nil. *)
Module Translator.
Record t : Type := mk {
  Get : string → list gval → string;
  GetN : string → string → Z → list gval → string;
  GetC : string → string → list gval → string;
  GetNC : string → string → Z → string → list gval → string;
  MarshalBinary : list Byte.byte * bool
}.

(** Two translators are equivalent when every lookup agrees. *)
Definition equiv (a b : t) : Prop :=
  (∀ s vs, Get a s vs = Get b s vs) ∧
  (∀ s p n vs, GetN a s p n vs = GetN b s p n vs) ∧
  (∀ s c vs, GetC a s c vs = GetC b s c vs) ∧
  (∀ s p n c vs, GetNC a s p n c vs = GetNC b s p n c vs).
End Translator.

(** ** What the code takes from the Go libraries and from other files of
    the package *)

Class Runtime : Type := {
  (** [path.Join]: joins the non-empty elements with a slash and cleans
      the result; it is empty only when every element is empty. *)
  path_Join : list string → string;
  path_Join_nonempty :
    ∀ (es : list string) (e : string), e ∈ es → e ≠ "" → path_Join es ≠ "";
  (** [fmt.Sprintf]. *)
  fmt_Sprintf : string → list gval → string;
  (** [SimplifiedLocale], declared in another file of the package. *)
  SimplifiedLocale : string → string
}.

(** The disk as one call sees it: which paths [os.Stat] finds, and the
    catalog that [ParseFile] builds from a path. *)
Record disk : Type := mkDisk {
  stat_ok : string → bool;
  parsed : kind → string → Translator.t
}.

Definition os_Stat (d : disk) (file : string) : M bool :=
  ([EvStat file], Ok (stat_ok d file)).

Definition ParseFile (d : disk) (k : kind) (file : string) : M Translator.t :=
  ([EvParse k file], Ok (parsed d k file)).

(** [if _, err := os.Stat(filename); err == nil { return filename }]
    followed by the rest [k] of the function. *)
Definition try_stat (d : disk) (filename : string) (k : M string) : M string :=
  ok ← os_Stat d filename;
  if ok : bool then mret filename else k.

(** A [for ... range] loop that threads the state [a]. *)
Fixpoint forM {A B : Type} (bs : list B) (a : A) (f : A → B → M A) : M A :=
  match bs with
  | [] => mret a
  | b :: bs => a ← f a b; forM bs a f
  end.

(** [s[:2]] on a Go string: the first two bytes, a panic when the string
    is shorter. *)
Definition slice2 (s : string) : M string :=
  if (String.length s <? 2)%nat then panic else mret (substring 0 2 s).

(** ** printf (part_001, lines 389-396) *)
Section Printf.
Context `{Runtime}.

Definition printf (str : string) (vars : list gval) : string :=
  if (0 <? List.length vars)%nat then fmt_Sprintf str vars else str.

(** Modelled from the spec: [Printf], the exported helper that the
    sync.Map Locale calls, is declared in another file of the package,
    which is not among the modelled sources.  The spec describes it as
    the printf-style variadic string interpolation applied to the
    resolved template, which is what the facade's own [printf] does. *)
Definition Printf (str : string) (vars : list gval) : string :=
  printf str vars.
End Printf.

(** ** The Locale over a sync.Map (part_000, lines 1-288) *)
Module LocaleA.

(** [Domains] is a [sync.Map]: a value is whatever was stored, here a
    Translator interface value that may be nil ([None]). *)
Record Locale : Type := mkLocale {
  path : string;
  lang : string;
  Domains : gmap string (option Translator.t);
  defaultDomain : string
}.

Definition set_defaultDomain (l : Locale) (dom : string) : Locale :=
  mkLocale (path l) (lang l) (Domains l) dom.

Definition set_Domains (l : Locale)
    (m : gmap string (option Translator.t)) : Locale :=
  mkLocale (path l) (lang l) m (defaultDomain l).

(** [LocaleEncoding] (its map field is [Domains] in the source). *)
Record LocaleEncoding : Type := mkLocaleEncoding {
  Path : string;
  Lang : string;
  EncDomains : gmap string (list Byte.byte);
  DefaultDomain : string
}.

(** The gob codec and the [TranslatorEncoding] type, which is declared in
    another file of the package.  Encoding returns the bytes and whether
    the error is non-nil; decoding returns [None] on error. *)
Class Gob : Type := {
  TranslatorEncoding : Type;
  GetTranslator : TranslatorEncoding → Translator.t;
  gob_Encode : LocaleEncoding → list Byte.byte * bool;
  gob_Decode : list Byte.byte → option LocaleEncoding;
  gob_Decode_translator : list Byte.byte → option TranslatorEncoding
}.

Section Defs.
Context `{Runtime}.

Definition NewLocale (p l : string) : Locale :=
  mkLocale p (SimplifiedLocale l) ∅ "".

Definition findExt (d : disk) (l : Locale) (dom ext lang' : string)
    : M string :=
  try_stat d (path_Join [path l; lang'; "LC_MESSAGES"; dom +:+ "." +:+ ext]) $
  try_stat d (path_Join [path l; lang l; dom +:+ "." +:+ ext]) $
  mret "".

(** The code after the label [nextAddDomain]. *)
Definition nextAddDomain (l : Locale) (dom : string) (poObj : Translator.t)
    : M Locale :=
  emit (EvLock MuLocale);;
  let l := if decide (defaultDomain l = "") then set_defaultDomain l dom
           else l in
  emit (EvUnlock MuLocale);;
  emit (EvStore dom);;
  mret (set_Domains l (<[dom := Some poObj]> (Domains l))).

Definition AddDomain (d : disk) (l : Locale) (dom : string) : M Locale :=
  file ← findExt d l dom "po" (lang l);
  if decide (file ≠ "") then
    poObj ← ParseFile d Po file;
    nextAddDomain l dom poObj
  else
    file ← findExt d l dom "mo" (lang l);
    if decide (file ≠ "") then
      poObj ← ParseFile d Mo file;
      nextAddDomain l dom poObj
    else
      lang2 ← slice2 (lang l);
      file ← findExt d l dom "po" lang2;
      if decide (file ≠ "") then
        poObj ← ParseFile d Po file;
        nextAddDomain l dom poObj
      else
        lang2 ← slice2 (lang l);
        file ← findExt d l dom "mo" lang2;
        if decide (file ≠ "") then
          poObj ← ParseFile d Mo file;
          nextAddDomain l dom poObj
        else
          mret l.

Definition AddTranslator (l : Locale) (dom : string)
    (tr : option Translator.t) : M Locale :=
  emit (EvLock MuLocale);;
  let l := if decide (defaultDomain l = "") then set_defaultDomain l dom
           else l in
  emit (EvUnlock MuLocale);;
  emit (EvStore dom);;
  mret (set_Domains l (<[dom := tr]> (Domains l))).

Definition GetDomain (l : Locale) : M string :=
  emit (EvRLock MuLocale);;
  let dom := defaultDomain l in
  emit (EvRUnlock MuLocale);;
  mret dom.

Definition SetDomain (l : Locale) (dom : string) : M Locale :=
  emit (EvLock MuLocale);;
  let l := set_defaultDomain l dom in
  emit (EvUnlock MuLocale);;
  mret l.

(** [v.(Translator)]: the assertion panics on a nil interface value. *)
Definition assert_Translator (v : option Translator.t) : M Translator.t :=
  match v with
  | Some t => mret t
  | None => panic
  end.

Definition GetND (l : Locale) (dom str plural : string) (n : Z)
    (vars : list gval) : M string :=
  match Domains l !! dom with
  | Some v =>
      t ← assert_Translator v;
      mret (Translator.GetN t str plural n vars)
  | None => mret (Printf plural vars)
  end.

Definition GetD (l : Locale) (dom str : string) (vars : list gval)
    : M string :=
  GetND l dom str str 1 vars.

Definition Get (l : Locale) (str : string) (vars : list gval) : M string :=
  dom ← GetDomain l;
  GetD l dom str vars.

Definition GetN (l : Locale) (str plural : string) (n : Z)
    (vars : list gval) : M string :=
  dom ← GetDomain l;
  GetND l dom str plural n vars.

Definition GetNDC (l : Locale) (dom str plural : string) (n : Z)
    (ctx : string) (vars : list gval) : M string :=
  match Domains l !! dom with
  | Some v =>
      t ← assert_Translator v;
      mret (Translator.GetNC t str plural n ctx vars)
  | None => mret (Printf plural vars)
  end.

Definition GetDC (l : Locale) (dom str ctx : string) (vars : list gval)
    : M string :=
  GetNDC l dom str str 1 ctx vars.

Definition GetC (l : Locale) (str ctx : string) (vars : list gval)
    : M string :=
  dom ← GetDomain l;
  GetDC l dom str ctx vars.

Definition GetNC (l : Locale) (str plural : string) (n : Z) (ctx : string)
    (vars : list gval) : M string :=
  dom ← GetDomain l;
  GetNDC l dom str plural n ctx vars.

(** [l.Domains.Range(f)] visits the entries in an order the language
    leaves open; [map_to_list] fixes one.  The callback stores the bytes
    under the key and stops the iteration at the first error, which it
    does not report. *)
Fixpoint marshal_range (kvs : list (string * option Translator.t))
    (acc : gmap string (list Byte.byte)) : M (gmap string (list Byte.byte)) :=
  match kvs with
  | [] => mret acc
  | (k, v) :: rest =>
      t ← assert_Translator v;
      let '(b, err) := Translator.MarshalBinary t in
      let acc := <[k := b]> acc in
      if err : bool then mret acc else marshal_range rest acc
  end.

Context `{Gob}.

Definition MarshalBinary (l : Locale) : M (list Byte.byte * bool) :=
  doms ← marshal_range (map_to_list (Domains l)) ∅;
  let obj := mkLocaleEncoding (path l) (lang l) doms (defaultDomain l) in
  mret (gob_Encode obj).

(** The loop [for k, v := range obj.Domains]. *)
Fixpoint unmarshal_range (kvs : list (string * list Byte.byte)) (l : Locale)
    : M (Locale * bool) :=
  match kvs with
  | [] => mret (l, false)
  | (k, v) :: rest =>
      match gob_Decode_translator v with
      | None => mret (l, true)
      | Some tr =>
          emit (EvStore k);;
          unmarshal_range rest
            (set_Domains l (<[k := Some (GetTranslator tr)]> (Domains l)))
      end
  end.

(** Returns the Locale as the call leaves it and whether the error is
    non-nil. *)
Definition UnmarshalBinary (l : Locale) (data : list Byte.byte)
    : M (Locale * bool) :=
  match gob_Decode data with
  | None => mret (l, true)
  | Some obj =>
      let l := mkLocale (Path obj) (Lang obj) (Domains l) (DefaultDomain obj) in
      unmarshal_range (map_to_list (EncDomains obj)) l
  end.

End Defs.
End LocaleA.

(** ** The Locale over a plain map (part_000, lines 289-512) *)
Module LocaleB.

(** [Domains] is a Go map: [None] is the nil map; a stored Translator
    interface value may itself be nil. *)
Record Locale : Type := mkLocale {
  path : string;
  lang : string;
  Domains : option (gmap string (option Translator.t));
  defaultDomain : string
}.

Definition set_defaultDomain (l : Locale) (dom : string) : Locale :=
  mkLocale (path l) (lang l) (Domains l) dom.

Definition set_Domains (l : Locale)
    (m : option (gmap string (option Translator.t))) : Locale :=
  mkLocale (path l) (lang l) m (defaultDomain l).

(** Reading [l.Domains[dom]] with the comma-ok form; a nil map reads as
    an empty one. *)
Definition Domains_lookup (l : Locale) (dom : string)
    : option (option Translator.t) :=
  m ← Domains l; m !! dom.

Section Defs.
Context `{Runtime}.

Definition NewLocale (p l : string) : Locale :=
  mkLocale p (SimplifiedLocale l) (Some ∅) "".

(** [if len(l.lang) > 2 { ...l.lang[:2]... }] followed by the rest [k];
    [probe] is the body of the [if], given the two-letter prefix. *)
Definition if_long (l : Locale) (probe : string → M string → M string)
    (k : M string) : M string :=
  if (2 <? String.length (lang l))%nat then
    lang2 ← slice2 (lang l);
    probe lang2 k
  else k.

Definition findExt (d : disk) (l : Locale) (dom ext : string) : M string :=
  try_stat d (path_Join [path l; lang l; "LC_MESSAGES"; dom +:+ "." +:+ ext]) $
  if_long l (λ lang2,
    try_stat d (path_Join [path l; lang2; "LC_MESSAGES"; dom +:+ "." +:+ ext])) $
  try_stat d (path_Join [path l; lang l; dom +:+ "." +:+ ext]) $
  if_long l (λ lang2,
    try_stat d (path_Join [path l; lang2; dom +:+ "." +:+ ext])) $
  mret "".

(** The code after the comment [Save new domain]. *)
Definition save_domain (l : Locale) (dom : string) (poObj : Translator.t)
    : M Locale :=
  emit (EvLock MuLocale);;
  let l := match Domains l with
           | None => set_Domains l (Some ∅)
           | Some _ => l
           end in
  let l := if decide (defaultDomain l = "") then set_defaultDomain l dom
           else l in
  emit (EvStore dom);;
  let l := set_Domains l (insert dom (Some poObj) <$> Domains l) in
  emit (EvUnlock MuLocale);;
  mret l.

Definition AddDomain (d : disk) (l : Locale) (dom : string) : M Locale :=
  file ← findExt d l dom "mo";
  if decide (file ≠ "") then
    poObj ← ParseFile d Mo file;
    save_domain l dom poObj
  else
    file ← findExt d l dom "po";
    if decide (file ≠ "") then
      poObj ← ParseFile d Po file;
      save_domain l dom poObj
    else
      mret l.

Definition GetDomain (l : Locale) : M string :=
  emit (EvRLock MuLocale);;
  let dom := defaultDomain l in
  emit (EvRUnlock MuLocale);;
  mret dom.

Definition SetDomain (l : Locale) (dom : string) : M Locale :=
  emit (EvLock MuLocale);;
  let l := set_defaultDomain l dom in
  emit (EvUnlock MuLocale);;
  mret l.

(** [l.RLock(); defer l.RUnlock()] around the body. *)
Definition DNGettext (l : Locale) (dom str plural : string) (n : Z)
    : M string :=
  emit (EvRLock MuLocale);;
  let r := match Domains l with
           | Some m =>
               match m !! dom with
               | Some (Some t) => Translator.GetN t str plural n []
               | _ => plural
               end
           | None => plural
           end in
  emit (EvRUnlock MuLocale);;
  mret r.

Definition DGettext (l : Locale) (dom str : string) : M string :=
  DNGettext l dom str str 1.

Definition Gettext (l : Locale) (str : string) : M string :=
  DGettext l (defaultDomain l) str.

Definition NGettext (l : Locale) (str plural : string) (n : Z) : M string :=
  DNGettext l (defaultDomain l) str plural n.

Definition DNPGettext (l : Locale) (dom ctx str plural : string) (n : Z)
    : M string :=
  emit (EvRLock MuLocale);;
  let r := match Domains l with
           | Some m =>
               match m !! dom with
               | Some (Some t) => Translator.GetNC t str plural n ctx []
               | _ => plural
               end
           | None => plural
           end in
  emit (EvRUnlock MuLocale);;
  mret r.

Definition DPGettext (l : Locale) (dom ctx str : string) : M string :=
  DNPGettext l dom ctx str str 1.

Definition PGettext (l : Locale) (ctx str : string) : M string :=
  DPGettext l (defaultDomain l) ctx str.

Definition NPGettext (l : Locale) (ctx str plural : string) (n : Z)
    : M string :=
  DNPGettext l (defaultDomain l) ctx str plural n.

End Defs.
End LocaleB.

(** ** The package facade over a sync.Map of Locales
    (part_000, lines 513-931) *)
Module FacadeA.
Import LocaleA.

(** [storage] is a [sync.Map] from language to [*Locale]; a Locale is
    reached only through its entry, so the entry holds the object. *)
Record config : Type := mkConfig {
  loadDomains : list string;
  domain : string;
  loadLanguages : list string;
  language : string;
  library : string;
  storage : gmap string Locale
}.

Definition set_storage (c : config) (m : gmap string Locale) : config :=
  mkConfig (loadDomains c) (domain c) (loadLanguages c) (language c)
    (library c) m.

Section Defs.
Context `{Runtime}.

(** The block that [loadStorage] runs for [c.language] and again for
    every entry of [c.loadLanguages]: [LoadOrStore], [AddDomain] of the
    default domain, then the loop over [c.loadDomains]. *)
Definition loadLocale (d : disk) (force : bool) (c : config)
    (language : string) : M config :=
  let v2 := default (NewLocale (library c) language) (storage c !! language) in
  v2 ← AddDomain d v2 (domain c);
  v2 ← forM (loadDomains c) v2 (λ v2 domain,
          if bool_decide (Domains v2 !! domain = None) || force
          then AddDomain d v2 domain
          else mret v2);
  mret (set_storage c (<[language := v2]> (storage c))).

Definition loadStorage (d : disk) (c : config) (force : bool) : M config :=
  emit (EvRLock MuConfig);;
  c ← loadLocale d force c (language c);
  c ← forM (loadLanguages c) c (loadLocale d force);
  emit (EvRUnlock MuConfig);;
  mret c.

Definition GetDomain (c : config) : M string :=
  emit (EvRLock MuConfig);;
  let dom := domain c in
  emit (EvRUnlock MuConfig);;
  mret dom.

(** Returns the configuration as the call leaves it and the string.  The
    Locale [v2] read at the start and the entry of [c.storage] are one
    object, so the final lookup reads the entry again. *)
Definition GetND (d : disk) (c : config) (dom str plural : string) (n : Z)
    (vars : list gval) : M (config * string) :=
  emit (EvRLock MuConfig);;
  let local := language c in
  emit (EvRUnlock MuConfig);;
  match storage c !! local with
  | Some v2 =>
      let notIncluded := bool_decide (Domains v2 !! dom = None) in
      v2 ← (if notIncluded then AddDomain d v2 dom else mret v2);
      let c := set_storage c (<[local := v2]> (storage c)) in
      c ← loadStorage d c true;
      let v2 := default v2 (storage c !! local) in
      tr ← LocaleA.GetND v2 dom str plural n vars;
      mret (c, tr)
  | None => mret (c, "")
  end.

Definition GetD (d : disk) (c : config) (dom str : string)
    (vars : list gval) : M (config * string) :=
  GetND d c dom str str 1 vars.

Definition GetNDC (d : disk) (c : config) (dom str plural : string) (n : Z)
    (ctx : string) (vars : list gval) : M (config * string) :=
  emit (EvRLock MuConfig);;
  let local := language c in
  emit (EvRUnlock MuConfig);;
  match storage c !! local with
  | Some v2 =>
      let notIncluded := bool_decide (Domains v2 !! dom = None) in
      v2 ← (if notIncluded then AddDomain d v2 dom else mret v2);
      let c := set_storage c (<[local := v2]> (storage c)) in
      c ← loadStorage d c true;
      let v2 := default v2 (storage c !! local) in
      tr ← LocaleA.GetNDC v2 dom str plural n ctx vars;
      mret (c, tr)
  | None => mret (c, "")
  end.

Definition set_domain (c : config) (dom : string) : config :=
  mkConfig (loadDomains c) dom (loadLanguages c) (language c) (library c)
    (storage c).

Definition set_language (c : config) (lang : string) : config :=
  mkConfig (loadDomains c) (domain c) (loadLanguages c) lang (library c)
    (storage c).

Definition set_library (c : config) (lib : string) : config :=
  mkConfig (loadDomains c) (domain c) (loadLanguages c) (language c) lib
    (storage c).

Definition GetLanguage (c : config) : M string :=
  emit (EvRLock MuConfig);;
  let lang := language c in
  emit (EvRUnlock MuConfig);;
  mret lang.

Definition SetLanguage (d : disk) (c : config) (lang : string) : M config :=
  emit (EvLock MuConfig);;
  let c := set_language c lang in
  emit (EvUnlock MuConfig);;
  loadStorage d c true.

Definition GetLibrary (c : config) : M string :=
  emit (EvRLock MuConfig);;
  let lib := library c in
  emit (EvRUnlock MuConfig);;
  mret lib.

Definition SetLibrary (d : disk) (c : config) (lib : string) : M config :=
  emit (EvLock MuConfig);;
  let c := set_library c lib in
  emit (EvUnlock MuConfig);;
  loadStorage d c true.

Definition Configure (d : disk) (c : config) (lib lang dom : string)
    : M config :=
  emit (EvLock MuConfig);;
  let c := set_library c lib in
  let c := set_language c lang in
  let c := set_domain c dom in
  emit (EvUnlock MuConfig);;
  loadStorage d c true.

End Defs.
End FacadeA.

(** ** The package functions over [globalConfig]
    (part_000, lines 799-931)

    [globalConfig] is the argument [g]; a function that changes it
    returns it. *)
Module PackageA.
Import LocaleA FacadeA.

Section Defs.
Context `{Runtime}.

Definition GetDomain (g : config) : M string :=
  lang ← FacadeA.GetLanguage g;
  dom ← match storage g !! lang with
        | Some v2 => LocaleA.GetDomain v2
        | None => mret ""
        end;
  emit (EvRLock MuConfig);;
  let dom := if decide (dom = "") then domain g else dom in
  emit (EvRUnlock MuConfig);;
  mret dom.

(** [globalConfig.storage.Range] calls [SetDomain] on every Locale, in
    an order the language leaves open; [map_to_list] fixes one. *)
Definition SetDomain (d : disk) (g : config) (dom : string) : M config :=
  emit (EvLock MuConfig);;
  let g := set_domain g dom in
  emit (EvUnlock MuConfig);;
  m ← forM (map_to_list (storage g)) (storage g) (λ m kv,
         loc ← LocaleA.SetDomain kv.2 dom;
         mret (<[kv.1 := loc]> m));
  loadStorage d (set_storage g m) true.

Definition GetLanguage (g : config) : M string :=
  emit (EvRLock MuConfig);;
  let lang := language g in
  emit (EvRUnlock MuConfig);;
  mret lang.

Definition SetLanguage (d : disk) (g : config) (lang : string) : M config :=
  emit (EvLock MuConfig);;
  let g := set_language g (SimplifiedLocale lang) in
  emit (EvUnlock MuConfig);;
  loadStorage d g true.

Definition GetLibrary (g : config) : M string :=
  emit (EvRLock MuConfig);;
  let lib := library g in
  emit (EvRUnlock MuConfig);;
  mret lib.

Definition SetLibrary (d : disk) (g : config) (lib : string) : M config :=
  emit (EvLock MuConfig);;
  let g := set_library g lib in
  emit (EvUnlock MuConfig);;
  loadStorage d g true.

Definition GetND (d : disk) (g : config) (dom str plural : string) (n : Z)
    (vars : list gval) : M (config * string) :=
  FacadeA.GetND d g dom str plural n vars.

Definition GetD (d : disk) (g : config) (dom str : string)
    (vars : list gval) : M (config * string) :=
  GetND d g dom str str 1 vars.

Definition Get (d : disk) (g : config) (str : string) (vars : list gval)
    : M (config * string) :=
  dom ← GetDomain g;
  GetD d g dom str vars.

End Defs.
End PackageA.

(** ** The package facade over a plain map of Locales (part_001) *)
Module FacadeB.
Import LocaleB.

(** [storage] is a Go map from language to [*Locale]; a nil map reads as
    an empty one and is made before the first write. *)
Record config : Type := mkConfig {
  loadDomains : list string;
  domain : string;
  loadLanguages : list string;
  language : string;
  library : string;
  storage : gmap string Locale
}.

Definition set_storage (c : config) (m : gmap string Locale) : config :=
  mkConfig (loadDomains c) (domain c) (loadLanguages c) (language c)
    (library c) m.

Section Defs.
Context `{Runtime}.

(** The Locale lookups that this file calls as [GetND] and [GetNDC]; the
    map-based Locale declares them under other names and without the
    variadic tail, so the facade takes them as given. *)
Variable Locale_GetND :
  Locale → string → string → string → Z → list gval → M string.
Variable Locale_GetNDC :
  Locale → string → string → string → Z → string → list gval → M string.

(** [if c.storage[key] == nil || force { c.storage[key] =
    NewLocale(c.library, c.language) }]. *)
Definition ensureLocale (force : bool) (c : config) (key : string) : config :=
  if bool_decide (storage c !! key = None) || force
  then set_storage c (<[key := NewLocale (library c) (language c)]> (storage c))
  else c.

(** [if _, ok := c.storage[key].domains[dom]; !ok || force {
    c.storage[key].AddDomain(dom) }]; the field is [Domains] in the
    map-based Locale.  A missing entry is a nil pointer. *)
Definition ensureDomain (d : disk) (force : bool) (key : string)
    (c : config) (dom : string) : M config :=
  match storage c !! key with
  | Some loc =>
      if bool_decide (Domains_lookup loc dom = None) || force
      then
        loc ← AddDomain d loc dom;
        mret (set_storage c (<[key := loc]> (storage c)))
      else mret c
  | None => panic
  end.

Definition loadStorage (d : disk) (c : config) (force : bool) : M config :=
  emit (EvLock MuConfig);;
  let c := ensureLocale force c (language c) in
  c ← ensureDomain d force (language c) c (domain c);
  c ← forM (loadLanguages c) c (λ c language,
         let c := ensureLocale force c language in
         forM (loadDomains c) c (ensureDomain d force language));
  emit (EvUnlock MuConfig);;
  mret c.

Definition GetND (d : disk) (c : config) (dom str plural : string) (n : Z)
    (vars : list gval) : M (config * string) :=
  c ← loadStorage d c false;
  emit (EvRLock MuConfig);;
  tr ← match storage c !! language c with
       | Some loc => Locale_GetND loc dom str plural n vars
       | None => panic
       end;
  emit (EvRUnlock MuConfig);;
  mret (c, tr).

Definition GetNDC (d : disk) (c : config) (dom str plural : string) (n : Z)
    (ctx : string) (vars : list gval) : M (config * string) :=
  c ← loadStorage d c false;
  emit (EvRLock MuConfig);;
  tr ← match storage c !! language c with
       | Some loc => Locale_GetNDC loc dom str plural n ctx vars
       | None => panic
       end;
  emit (EvRUnlock MuConfig);;
  mret (c, tr).

Definition set_domain (c : config) (dom : string) : config :=
  mkConfig (loadDomains c) dom (loadLanguages c) (language c) (library c)
    (storage c).

Definition set_language (c : config) (lang : string) : config :=
  mkConfig (loadDomains c) (domain c) (loadLanguages c) lang (library c)
    (storage c).

Definition set_library (c : config) (lib : string) : config :=
  mkConfig (loadDomains c) (domain c) (loadLanguages c) (language c) lib
    (storage c).

Definition loadDomain (d : disk) (c : config) (domain' : string)
    (force : bool) : M config :=
  emit (EvLock MuConfig);;
  let c := ensureLocale force c (language c) in
  c ← ensureDomain d force (language c) c (domain c);
  c ← ensureDomain d force (language c) c domain';
  emit (EvUnlock MuConfig);;
  mret c.

Definition SetDomain (d : disk) (c : config) (dom : string) : M config :=
  emit (EvLock MuConfig);;
  let c := set_domain c dom in
  emit (EvUnlock MuConfig);;
  loadStorage d c true.

Definition SetLanguage (d : disk) (c : config) (lang : string) : M config :=
  emit (EvLock MuConfig);;
  let c := set_language c lang in
  emit (EvUnlock MuConfig);;
  loadStorage d c true.

Definition SetLibrary (d : disk) (c : config) (lib : string) : M config :=
  emit (EvLock MuConfig);;
  let c := set_library c lib in
  emit (EvUnlock MuConfig);;
  loadStorage d c true.

Definition Configure (d : disk) (c : config) (lib lang dom : string)
    : M config :=
  emit (EvLock MuConfig);;
  let c := set_library c lib in
  let c := set_language c lang in
  let c := set_domain c dom in
  emit (EvUnlock MuConfig);;
  loadStorage d c true.

End Defs.
End FacadeB.

(** ** The vocabulary of the statements *)

(** The plural fallback as the spec words it: the msgid for [n = 1], the
    plural argument otherwise. *)
Definition english_fallback (msgid plural : string) (n : Z) : string :=
  if (n =? 1)%Z then msgid else plural.

(** The file extension of a catalog format. *)
Definition ext_of (k : kind) : string :=
  match k with Po => "po" | Mo => "mo" end.

(** [lang[:2]] as the spec writes it in the candidate paths. *)
Definition prefix2 (lang : string) : string := substring 0 2 lang.

(** The candidate files of one extension, in the order of the spec:
    [P/lang/LC_MESSAGES/dom.ext], [P/lang[:2]/LC_MESSAGES/dom.ext],
    [P/lang/dom.ext], [P/lang[:2]/dom.ext]; the two prefix candidates are
    left out when [with_prefix] is false. *)
Definition candidates_ext `{Runtime} (P lang dom : string) (k : kind)
    (with_prefix : bool) : list (kind * string) :=
  let f := dom +:+ "." +:+ ext_of k in
  [(k, path_Join [P; lang; "LC_MESSAGES"; f])] ++
  (if with_prefix then [(k, path_Join [P; prefix2 lang; "LC_MESSAGES"; f])]
   else []) ++
  [(k, path_Join [P; lang; f])] ++
  (if with_prefix then [(k, path_Join [P; prefix2 lang; f])] else []).

(** The resolution order as the spec states it: the four candidates with
    [.mo], then the same four with [.po]. *)
Definition spec_candidates `{Runtime} (P lang dom : string)
    : list (kind * string) :=
  candidates_ext P lang dom Mo true ++ candidates_ext P lang dom Po true.

(** The same order with the prefix candidates only for a tag longer than
    two characters. *)
Definition guarded_candidates `{Runtime} (P lang dom : string)
    : list (kind * string) :=
  let w := (2 <? String.length lang)%nat in
  candidates_ext P lang dom Mo w ++ candidates_ext P lang dom Po w.

(** Probing a list of candidates in order stops at the first one that
    exists: the files probed, and the file found. *)
Fixpoint probed (d : disk) (cs : list (kind * string)) : list string :=
  match cs with
  | [] => []
  | c :: cs => c.2 :: (if stat_ok d c.2 then [] else probed d cs)
  end.

Definition first_existing (d : disk) (cs : list (kind * string))
    : option (kind * string) :=
  List.find (λ c, stat_ok d c.2) cs.

(** Whether every parse in a trace happens while the Locale's exclusive
    lock is held ([held] is the state of the lock before the trace). *)
Fixpoint parses_locked (held : bool) (t : list event) : bool :=
  match t with
  | [] => true
  | EvLock MuLocale :: t => parses_locked true t
  | EvUnlock MuLocale :: t => parses_locked false t
  | EvParse _ _ :: t => held && parses_locked held t
  | _ :: t => parses_locked held t
  end.

(** Two threads that run on one Locale: a merged trace tags every event
    with its thread.  [thread_trace] is what one thread did;
    [lock_respecting] says that the merge is one the Locale's mutex
    allows: a thread locks only a free mutex and only the owner unlocks. *)
Definition thread_trace (i : bool) (m : list (bool * event)) : list event :=
  omap (λ te : bool * event, if Bool.eqb te.1 i then Some te.2 else None) m.

Fixpoint lock_respecting (owner : option bool) (m : list (bool * event))
    : bool :=
  match m with
  | [] => true
  | (i, EvLock MuLocale) :: m =>
      match owner with
      | None => lock_respecting (Some i) m
      | Some _ => false
      end
  | (i, EvUnlock MuLocale) :: m =>
      match owner with
      | Some j => Bool.eqb i j && lock_respecting None m
      | None => false
      end
  | _ :: m => lock_respecting owner m
  end.

(** The domain names stored by a trace, in order. *)
Definition store_events (t : list event) : list string :=
  omap (λ e, match e with EvStore dom => Some dom | _ => None end) t.

(** The first non-empty name of a list, the empty string if there is
    none. *)
Definition first_nonempty (names : list string) : string :=
  default "" (head (List.filter (λ s, negb (String.eqb s "")) names)).

(** Sequences of add operations on a Locale. *)
Inductive opA : Type :=
  | OpAddDomainA (d : disk) (dom : string)
  | OpAddTranslatorA (dom : string) (tr : option Translator.t).

Definition stepA `{Runtime} (l : LocaleA.Locale) (o : opA) : M LocaleA.Locale :=
  match o with
  | OpAddDomainA d dom => LocaleA.AddDomain d l dom
  | OpAddTranslatorA dom tr => LocaleA.AddTranslator l dom tr
  end.

Definition runA `{Runtime} (l : LocaleA.Locale) (ops : list opA)
    : M LocaleA.Locale :=
  forM ops l stepA.

(** For the map-based Locale a sequence of [AddDomain] calls is a list of
    disks and domain names. *)
Definition runB `{Runtime} (l : LocaleB.Locale) (ops : list (disk * string))
    : M LocaleB.Locale :=
  forM ops l (λ l o, LocaleB.AddDomain o.1 l o.2).

(** Whether everything the configuration names is loaded: the Locale of
    the current language with the default domain, and for every language
    of [loadLanguages] a Locale with every domain of [loadDomains]. *)
Definition loadedB (c : FacadeB.config) (lang dom : string) : bool :=
  match FacadeB.storage c !! lang with
  | Some loc => bool_decide (LocaleB.Domains_lookup loc dom ≠ None)
  | None => false
  end.

Definition configured_loaded (c : FacadeB.config) : bool :=
  loadedB c (FacadeB.language c) (FacadeB.domain c) &&
  forallb (λ lang,
    bool_decide (FacadeB.storage c !! lang ≠ None) &&
    forallb (loadedB c lang) (FacadeB.loadDomains c))
    (FacadeB.loadLanguages c).

(** The files that [LocaleA.AddDomain] probes: first with the whole tag,
    then, when nothing was found, with its two-letter prefix.  The second
    probe of [LocaleA.findExt] always uses the whole tag. *)
Definition candidatesA_ext `{Runtime} (l : LocaleA.Locale) (dom lang' : string)
    (k : kind) : list (kind * string) :=
  let f := dom +:+ "." +:+ ext_of k in
  [(k, path_Join [LocaleA.path l; lang'; "LC_MESSAGES"; f]);
   (k, path_Join [LocaleA.path l; LocaleA.lang l; f])].

Definition candidatesA_tag `{Runtime} (l : LocaleA.Locale) (dom : string)
    : list (kind * string) :=
  candidatesA_ext l dom (LocaleA.lang l) Po ++
  candidatesA_ext l dom (LocaleA.lang l) Mo.

Definition candidatesA_prefix `{Runtime} (l : LocaleA.Locale) (dom : string)
    : list (kind * string) :=
  candidatesA_ext l dom (prefix2 (LocaleA.lang l)) Po ++
  candidatesA_ext l dom (prefix2 (LocaleA.lang l)) Mo.

(** The Locale after a catalog was saved under [dom]. *)
Definition savedA (l : LocaleA.Locale) (dom : string) (tr : option Translator.t)
    : LocaleA.Locale :=
  LocaleA.mkLocale (LocaleA.path l) (LocaleA.lang l)
    (<[dom := tr]> (LocaleA.Domains l))
    (if decide (LocaleA.defaultDomain l = "") then dom
     else LocaleA.defaultDomain l).

Definition savedB (l : LocaleB.Locale) (dom : string) (tr : Translator.t)
    : LocaleB.Locale :=
  LocaleB.mkLocale (LocaleB.path l) (LocaleB.lang l)
    (Some (<[dom := Some tr]> (default ∅ (LocaleB.Domains l))))
    (if decide (LocaleB.defaultDomain l = "") then dom
     else LocaleB.defaultDomain l).

(** The events after the probes when [AddDomain] found the file [c]. *)
Definition load_eventsA (dom : string) (c : kind * string) : list event :=
  [EvParse c.1 c.2; EvLock MuLocale; EvUnlock MuLocale; EvStore dom].

Definition load_eventsB (dom : string) (c : kind * string) : list event :=
  [EvParse c.1 c.2; EvLock MuLocale; EvStore dom; EvUnlock MuLocale].

(** Every catalog stored in [c] is still stored, unchanged, in [c']. *)
Definition catalogs_kept (c c' : FacadeB.config) : Prop :=
  ∀ (lang : string) (loc : LocaleB.Locale),
    FacadeB.storage c !! lang = Some loc →
    ∃ loc', FacadeB.storage c' !! lang = Some loc' ∧
      ∀ (dom : string) (v : option Translator.t),
        LocaleB.Domains_lookup loc dom = Some v →
        LocaleB.Domains_lookup loc' dom = Some v.

(** The state of one RWMutex as a single thread sees it, and the run of
    a trace over it: a lock is taken only when the mutex is free, and
    released only by the matching unlock.  [None] is a violation (in Go,
    a deadlock or a fatal error). *)
Inductive lock_state : Type := Free | WriteHeld | ReadHeld.

Fixpoint lock_run (m : mutex) (st : lock_state) (t : list event)
    : option lock_state :=
  match t with
  | [] => Some st
  | e :: t =>
      match e, st with
      | EvLock m', Free =>
          if decide (m' = m) then lock_run m WriteHeld t else lock_run m st t
      | EvUnlock m', WriteHeld =>
          if decide (m' = m) then lock_run m Free t else lock_run m st t
      | EvRLock m', Free =>
          if decide (m' = m) then lock_run m ReadHeld t else lock_run m st t
      | EvRUnlock m', ReadHeld =>
          if decide (m' = m) then lock_run m Free t else lock_run m st t
      | (EvLock m' | EvUnlock m' | EvRLock m' | EvRUnlock m'), _ =>
          if decide (m' = m) then None else lock_run m st t
      | _, _ => lock_run m st t
      end
  end.

(** The Locale stored under [key] has the path [L] and the tag [T]. *)
Definition placedB (L T : string) (c : FacadeB.config) (key : string) : Prop :=
  ∃ loc, FacadeB.storage c !! key = Some loc ∧
         LocaleB.path loc = L ∧ LocaleB.lang loc = T.

(** [c'] has the settings of [c], and every Locale of [c] that has the
    path [L] and the tag [T] still has them in [c']. *)
Definition settledB (c c' : FacadeB.config) : Prop :=
  FacadeB.library c' = FacadeB.library c ∧
  FacadeB.language c' = FacadeB.language c ∧
  FacadeB.domain c' = FacadeB.domain c ∧
  FacadeB.loadDomains c' = FacadeB.loadDomains c ∧
  FacadeB.loadLanguages c' = FacadeB.loadLanguages c ∧
  ∀ L T x, placedB L T c x → placedB L T c' x.

(** The Locale [l'] is where [l] is: same path, same tag, and the
    default domain of [l] when [l] has one. *)
Definition same_place (l l' : LocaleA.Locale) : Prop :=
  LocaleA.path l' = LocaleA.path l ∧
  LocaleA.lang l' = LocaleA.lang l ∧
  (LocaleA.defaultDomain l ≠ "" →
   LocaleA.defaultDomain l' = LocaleA.defaultDomain l).

(** [c'] has the settings of [c], every Locale of [c] is in [c'] where
    it was, and a Locale that [c] did not hold was made for its key with
    the library path of [c]. *)
Definition settledA `{Runtime} (c c' : FacadeA.config) : Prop :=
  FacadeA.library c' = FacadeA.library c ∧
  FacadeA.language c' = FacadeA.language c ∧
  FacadeA.domain c' = FacadeA.domain c ∧
  FacadeA.loadDomains c' = FacadeA.loadDomains c ∧
  FacadeA.loadLanguages c' = FacadeA.loadLanguages c ∧
  (∀ key loc, FacadeA.storage c !! key = Some loc →
     ∃ loc', FacadeA.storage c' !! key = Some loc' ∧ same_place loc loc') ∧
  (∀ key loc', FacadeA.storage c' !! key = Some loc' →
     FacadeA.storage c !! key = None →
     LocaleA.path loc' = FacadeA.library c ∧
     LocaleA.lang loc' = SimplifiedLocale key).

(** ** Concrete inputs for the examples *)

(** Joining the non-empty elements with a slash; on the paths of the
    examples, which have no dot, double slash or trailing slash to clean,
    this is what [path.Join] returns. *)
Definition join_slash (es : list string) : string :=
  String.concat "/" (List.filter (λ e, negb (String.eqb e "")) es).

(** A stand-in for [fmt.Sprintf] on the verbs of the examples: a verb
    takes the next argument, and a verb without argument is marked as
    missing. *)
Definition show_gval (v : gval) : string :=
  match v with
  | VString s => s
  | VInt z => pretty z
  | VBool b => if b then "true" else "false"
  end.

Fixpoint sprintf (s : string) (vs : list gval) : string :=
  match s with
  | EmptyString => ""
  | String "%" (String c rest) =>
      if Ascii.eqb c "%" then String "%" (sprintf rest vs)
      else match vs with
           | v :: vs => show_gval v +:+ sprintf rest vs
           | [] => "%!" +:+ String c "(MISSING)" +:+ sprintf rest []
           end
  | String c rest => String c (sprintf rest vs)
  end.

(** The run-time of the examples; [SimplifiedLocale] leaves the tags of
    the examples as they are. *)
#[local] Instance rt0 : Runtime.
Proof.
  refine {| path_Join := join_slash;
            path_Join_nonempty := _;
            fmt_Sprintf := sprintf;
            SimplifiedLocale := λ l, l |}.
  assert (∀ (sep e : string) (es : list string),
            e ≠ "" → String.concat sep (e :: es) ≠ "") as Hcat.
  { intros sep e es He. destruct es as [|e' es]; cbn; [done |].
    destruct e; [congruence | discriminate]. }
  intros es e Hin He. unfold join_slash.
  induction Hin as [e es | e e' es Hin IH]; cbn.
  - destruct (String.eqb_spec e ""); [done |]. cbn. by apply Hcat.
  - destruct (String.eqb_spec e' "") as [-> | Hne]; cbn; [by apply IH |].
    by apply Hcat.
Defined.

(** A catalog that answers every lookup with [s] and marshals to [bs]. *)
Definition tr_const (s : string) (bs : list Byte.byte) : Translator.t :=
  Translator.mk (λ _ _, s) (λ _ _ _ _, s) (λ _ _ _, s) (λ _ _ _ _ _, s)
    (bs, false).

(** A disk that holds exactly [files]; parsing a file gives the catalog
    that answers with the file's path. *)
Definition disk_of (files : list string) : disk :=
  mkDisk (λ f, bool_decide (f ∈ files)) (λ _ f, tr_const f []).

Definition localeA_fresh (p l : string) : LocaleA.Locale :=
  LocaleA.mkLocale p l ∅ "".

Definition localeB_fresh (p l : string) : LocaleB.Locale :=
  LocaleB.mkLocale p l (Some ∅) "".

#[global] Instance byte_eq_dec : EqDecision Byte.byte := Byte.byte_eq_dec.
#[global] Instance LocaleEncoding_eq_dec : EqDecision LocaleA.LocaleEncoding.
Proof. solve_decision. Defined.

(** A Locale with one Spanish catalog, and what it encodes to. *)
Definition tr_hola : Translator.t := tr_const "Hola" [Byte.x01].

Definition locale_es : LocaleA.Locale :=
  LocaleA.mkLocale "/p" "es" {["default" := Some tr_hola]} "default".

Definition encoding_es : LocaleA.LocaleEncoding :=
  LocaleA.mkLocaleEncoding "/p" "es" {["default" := [Byte.x01]]} "default".

(** A codec that knows this one Locale: it encodes [encoding_es] as the
    byte [xff] and fails on anything else; a catalog encoding is the
    answer of the catalog, and the byte [x01] decodes to "Hola". *)
#[local] Instance gob_es : LocaleA.Gob :=
  {| LocaleA.TranslatorEncoding := string;
     LocaleA.GetTranslator := λ s, tr_const s [Byte.x01];
     LocaleA.gob_Encode := λ obj,
       if decide (obj = encoding_es) then ([Byte.xff], false) else ([], true);
     LocaleA.gob_Decode := λ b,
       if decide (b = [Byte.xff]) then Some encoding_es else None;
     LocaleA.gob_Decode_translator := λ b,
       if decide (b = [Byte.x01]) then Some "Hola" else None |}.

(** A codec whose every blob decodes to a French Locale with one
    domain, and whose catalog blobs never decode. *)
Definition gob_half : LocaleA.Gob :=
  {| LocaleA.TranslatorEncoding := string;
     LocaleA.GetTranslator := λ s, tr_const s [];
     LocaleA.gob_Encode := λ _, ([], false);
     LocaleA.gob_Decode := λ _,
       Some (LocaleA.mkLocaleEncoding "/q" "fr" {["menu" := [Byte.x02]]}
               "menu");
     LocaleA.gob_Decode_translator := λ _, None |}.

(** A catalog whose [MarshalBinary] reports an error. *)
Definition tr_failing : Translator.t :=
  Translator.mk (λ _ _, "") (λ _ _ _ _, "") (λ _ _ _, "") (λ _ _ _ _ _, "")
    ([Byte.x07], true).

(** Configurations of the sync.Map facade without a Locale: one for
    [de_DE] and one whose language is a single letter. *)
Definition configA_no_locale : FacadeA.config :=
  FacadeA.mkConfig ["default"] "default" [] "de_DE" "/p" ∅.

Definition configA_short_tag : FacadeA.config :=
  FacadeA.mkConfig [] "default" [] "e" "/p" ∅.

(** The plural lookups of the map-based Locale under the names the facade
    of part_001 calls; the variadic tail is not used. *)
Definition lookupB (l : LocaleB.Locale) (dom str plural : string) (n : Z)
    (vars : list gval) : M string :=
  LocaleB.DNGettext l dom str plural n.

Definition lookupBC (l : LocaleB.Locale) (dom str plural : string) (n : Z)
    (ctx : string) (vars : list gval) : M string :=
  LocaleB.DNPGettext l dom ctx str plural n.

(** A configuration of the map-based facade: the domain [extras] is
    loaded for [en_US], the default domain [default] is not. *)
Definition configB_extras : FacadeB.config :=
  FacadeB.mkConfig [] "default" [] "en_US" "/p"
    {["en_US" := LocaleB.mkLocale "/p" "en_US"
                   (Some {["extras" := Some (tr_const "extra" [])]}) "extras"]}.

(** The same with [extras] as the default domain: everything the
    configuration names is loaded. *)
Definition configB_loaded : FacadeB.config :=
  FacadeB.mkConfig ["extras"] "extras" ["en_US"] "en_US" "/p"
    (FacadeB.storage configB_extras).

(** A configuration of the sync.Map facade with the settings of [init]
    and the domain [default] loaded for [en_US]. *)
Definition configA_default : FacadeA.config :=
  FacadeA.mkConfig ["default"] "default" ["en_US"] "en_US" "/p"
    {["en_US" := LocaleA.mkLocale "/p" "en_US"
                   {["default" := Some (tr_const "loaded" [])]} "default"]}.

(** * Theorems *)

(** ** The effect monad *)

Lemma bind_Ok {A B : Type} (t : list event) (a : A) (f : A → M B) :
  (t, Ok a) ≫= f = (t ++ trace (f a), result (f a)).
Proof. unfold mbind, M_bind, trace, result. by destruct (f a). Qed.

Lemma bind_Panic {A B : Type} (t : list event) (f : A → M B) :
  ((t, Panic) : M A) ≫= f = (t, Panic).
Proof. done. Qed.

Lemma bind_mret {A B : Type} (a : A) (f : A → M B) : mret a ≫= f = f a.
Proof. unfold mret, M_ret. rewrite bind_Ok. by destruct (f a). Qed.

Lemma trace_bind {A B : Type} (m : M A) (f : A → M B) :
  trace (m ≫= f) =
  trace m ++ match result m with Ok a => trace (f a) | Panic => [] end.
Proof.
  destruct m as [t [a|]]; [by rewrite bind_Ok | by rewrite bind_Panic, app_nil_r].
Qed.

Lemma result_bind {A B : Type} (m : M A) (f : A → M B) :
  result (m ≫= f) =
  match result m with Ok a => result (f a) | Panic => Panic end.
Proof. destruct m as [t [a|]]; [by rewrite bind_Ok | done]. Qed.

(** ** printf *)

(** C10. For every template [s], [printf] with no arguments returns [s]
    unchanged, whatever [fmt.Sprintf] would make of its verbs, and with
    at least one argument it returns [fmt.Sprintf(s, args...)]. *)
Theorem printf_formats_only_with_arguments `{Runtime} (s : string) :
  printf s [] = s ∧
  ∀ (v : gval) (vs : list gval), printf s (v :: vs) = fmt_Sprintf s (v :: vs).
Proof. split; [reflexivity | intros v vs; reflexivity]. Qed.

(** A verb in a template is left alone when no argument is passed, while
    the stand-in for [fmt.Sprintf] would mark it. *)
Example printf_keeps_verbs :
  printf "%d files" [] = "%d files" ∧
  fmt_Sprintf "%d files" [] = "%!d(MISSING) files" ∧
  printf "%d files" [VInt 3] = "3 files".
Proof. repeat split; vm_compute; reflexivity. Qed.

(** ** Lookups against a domain that is not in the map *)

Section MissingDomain.
Context `{Runtime}.

Lemma LocaleA_GetND_missing (l : LocaleA.Locale) (dom str plural : string)
    (n : Z) (vars : list gval) :
  LocaleA.Domains l !! dom = None →
  LocaleA.GetND l dom str plural n vars = mret (Printf plural vars).
Proof. intros Hd. unfold LocaleA.GetND. by rewrite Hd. Qed.

Lemma LocaleA_GetNDC_missing (l : LocaleA.Locale) (dom str plural : string)
    (n : Z) (ctx : string) (vars : list gval) :
  LocaleA.Domains l !! dom = None →
  LocaleA.GetNDC l dom str plural n ctx vars = mret (Printf plural vars).
Proof. intros Hd. unfold LocaleA.GetNDC. by rewrite Hd. Qed.

Lemma LocaleB_DNGettext_missing (l : LocaleB.Locale) (dom str plural : string)
    (n : Z) :
  LocaleB.Domains_lookup l dom = None →
  result (LocaleB.DNGettext l dom str plural n) = Ok plural.
Proof.
  unfold LocaleB.Domains_lookup, LocaleB.DNGettext. intros Hd.
  destruct (LocaleB.Domains l) as [m|]; cbn in *; [by rewrite Hd | done].
Qed.

Lemma LocaleB_DNPGettext_missing (l : LocaleB.Locale)
    (dom ctx str plural : string) (n : Z) :
  LocaleB.Domains_lookup l dom = None →
  result (LocaleB.DNPGettext l dom ctx str plural n) = Ok plural.
Proof.
  unfold LocaleB.Domains_lookup, LocaleB.DNPGettext. intros Hd.
  destruct (LocaleB.Domains l) as [m|]; cbn in *; [by rewrite Hd | done].
Qed.

End MissingDomain.

(** C1. When the domain has no entry in the Locale's domain map, every
    lookup returns a string and does not panic: [GetND] and [GetNDC]
    return the plural argument, and [GetD] and [GetDC] the string itself,
    passed through [Printf]; so do [GetN] and [Get] when the default
    domain is the missing one.  The lookups of the map-based Locale
    return the same arguments as they are. *)
Theorem missing_domain_lookup_returns_input `{Runtime}
    (la : LocaleA.Locale) (lb : LocaleB.Locale)
    (dom str plural ctx : string) (n : Z) (vars : list gval) :
  LocaleA.Domains la !! dom = None →
  LocaleB.Domains_lookup lb dom = None →
  (result (LocaleA.GetND la dom str plural n vars) = Ok (Printf plural vars) ∧
   result (LocaleA.GetNDC la dom str plural n ctx vars)
     = Ok (Printf plural vars) ∧
   result (LocaleA.GetD la dom str vars) = Ok (Printf str vars) ∧
   result (LocaleA.GetDC la dom str ctx vars) = Ok (Printf str vars) ∧
   (dom = LocaleA.defaultDomain la →
    result (LocaleA.GetN la str plural n vars) = Ok (Printf plural vars) ∧
    result (LocaleA.Get la str vars) = Ok (Printf str vars))) ∧
  (result (LocaleB.DNGettext lb dom str plural n) = Ok plural ∧
   result (LocaleB.DNPGettext lb dom ctx str plural n) = Ok plural ∧
   result (LocaleB.DGettext lb dom str) = Ok str ∧
   result (LocaleB.DPGettext lb dom ctx str) = Ok str) ∧
  Printf plural [] = plural.
Proof.
  intros Ha Hb. split; [| split; [| reflexivity]].
  - unfold LocaleA.GetD, LocaleA.GetDC, LocaleA.GetN, LocaleA.Get.
    repeat split.
    + by rewrite LocaleA_GetND_missing.
    + by rewrite LocaleA_GetNDC_missing.
    + by rewrite LocaleA_GetND_missing.
    + by rewrite LocaleA_GetNDC_missing.
    + subst dom. unfold LocaleA.GetDomain. cbn.
      by rewrite LocaleA_GetND_missing.
    + subst dom. unfold LocaleA.GetDomain, LocaleA.GetD. cbn.
      by rewrite LocaleA_GetND_missing.
  - unfold LocaleB.DGettext, LocaleB.DPGettext.
    repeat split;
      by (apply LocaleB_DNGettext_missing || apply LocaleB_DNPGettext_missing).
Qed.

Lemma missing_domain_lookup_returns_input_witness :
  result (LocaleA.GetND (localeA_fresh "/p" "en_US") "app" "%d apple"
            "%d apples" 5 [VInt 5]) = Ok "5 apples" ∧
  result (LocaleB.DNGettext (localeB_fresh "/p" "en_US") "app" "%d apple"
            "%d apples" 5) = Ok "%d apples".
Proof.
  pose proof (missing_domain_lookup_returns_input
    (localeA_fresh "/p" "en_US") (localeB_fresh "/p" "en_US")
    "app" "%d apple" "%d apples" "" 5 [VInt 5]
    ltac:(reflexivity) ltac:(reflexivity)) as [[Ha _] [[Hb _] _]].
  split; [exact Ha | exact Hb].
Defined.

(** With no catalog for the domain, [GetND "apple" "apples" 1] answers
    "apples": the fallback does not look at [n]. *)
Lemma plural_fallback_ignores_count :
  LocaleA.Domains (localeA_fresh "/p" "en_US") !! "app" = None ∧
  result (LocaleA.GetND (localeA_fresh "/p" "en_US") "app" "apple" "apples" 1 [])
    ≠ Ok (english_fallback "apple" "apples" 1) ∧
  result (LocaleB.DNGettext (localeB_fresh "/p" "en_US") "app" "apple" "apples" 1)
    ≠ Ok (english_fallback "apple" "apples" 1).
Proof. split; [reflexivity |]. split; vm_compute; discriminate. Qed.

(** C2, as the code has it.  With no catalog for the domain, the plural
    lookup returns the plural argument for every [n], also for [n = 1];
    the singular lookups, which pass the msgid as both arguments, return
    the msgid. *)
Theorem missing_domain_plural_lookup_returns_plural `{Runtime}
    (la : LocaleA.Locale) (lb : LocaleB.Locale)
    (dom msgid plural : string) (n : Z) :
  LocaleA.Domains la !! dom = None →
  LocaleB.Domains_lookup lb dom = None →
  result (LocaleA.GetND la dom msgid plural n []) = Ok plural ∧
  result (LocaleA.GetD la dom msgid []) = Ok msgid ∧
  result (LocaleB.DNGettext lb dom msgid plural n) = Ok plural ∧
  result (LocaleB.DGettext lb dom msgid) = Ok msgid ∧
  (n ≠ 1%Z → english_fallback msgid plural n = plural).
Proof.
  intros Ha Hb. unfold LocaleA.GetD, LocaleB.DGettext.
  rewrite !LocaleA_GetND_missing by done.
  rewrite !LocaleB_DNGettext_missing by done.
  repeat split. intros Hn. unfold english_fallback.
  by destruct (Z.eqb_spec n 1).
Qed.

Lemma missing_domain_plural_lookup_returns_plural_witness :
  result (LocaleA.GetND (localeA_fresh "/p" "en_US") "app" "apple" "apples" 1 [])
    = Ok "apples".
Proof.
  exact (proj1 (missing_domain_plural_lookup_returns_plural
    (localeA_fresh "/p" "en_US") (localeB_fresh "/p" "en_US")
    "app" "apple" "apples" 1 ltac:(reflexivity) ltac:(reflexivity))).
Defined.

(** ** Probing candidates *)

Lemma file_name_nonempty (dom ext : string) : dom +:+ "." +:+ ext ≠ "".
Proof. destruct dom; discriminate. Qed.

Lemma probed_app (d : disk) (a b : list (kind * string)) :
  probed d (a ++ b) =
  match first_existing d a with
  | Some _ => probed d a
  | None => a.*2 ++ probed d b
  end.
Proof.
  unfold first_existing.
  induction a as [|c a IH]; cbn; [done |].
  destruct (stat_ok d c.2); [done |]. rewrite IH.
  by destruct (find _ a).
Qed.

Lemma first_existing_app (d : disk) (a b : list (kind * string)) :
  first_existing d (a ++ b) =
  match first_existing d a with
  | Some c => Some c
  | None => first_existing d b
  end.
Proof.
  unfold first_existing.
  induction a as [|c a IH]; cbn; [done |]. by destruct (stat_ok d c.2).
Qed.

Lemma probed_none (d : disk) (a : list (kind * string)) :
  first_existing d a = None → probed d a = a.*2.
Proof.
  unfold first_existing.
  induction a as [|c a IH]; cbn; [done |].
  destruct (stat_ok d c.2); [done |]. intros Hn. by rewrite IH.
Qed.

Lemma first_existing_Some (d : disk) (a : list (kind * string))
    (c : kind * string) :
  first_existing d a = Some c → c ∈ a ∧ stat_ok d c.2 = true.
Proof.
  unfold first_existing. intros Hf. apply find_some in Hf as [Hin Hs].
  split; [by apply list_elem_of_In | done].
Qed.

Lemma first_existing_None (d : disk) (a : list (kind * string)) :
  (∀ c, c ∈ a → stat_ok d c.2 = false) → first_existing d a = None.
Proof.
  unfold first_existing. intros Hall.
  induction a as [|c a IH]; cbn; [done |].
  rewrite (Hall c) by left. apply IH. intros c' Hc'. apply Hall. by right.
Qed.

(** Case analysis on every probe that is left in the goal. *)
Ltac case_stats d :=
  repeat (match goal with
          | |- context [stat_ok d ?f] => destruct (stat_ok d f)
          end; cbn; try done).

Section Candidates.
Context `{Runtime}.

Lemma candidates_ext_nonempty (P lang dom : string) (k k' : kind) (w : bool)
    (f : string) :
  (k', f) ∈ candidates_ext P lang dom k w → k' = k ∧ f ≠ "".
Proof.
  unfold candidates_ext. intros Hin.
  assert (∀ es, dom +:+ "." +:+ ext_of k ∈ es → path_Join es ≠ "") as Hj.
  { intros es Hes. eapply path_Join_nonempty; [done |].
    apply file_name_nonempty. }
  destruct w; cbn in Hin; set_unfold; destruct_or!; simplify_eq;
    (split; [done |]); apply Hj; set_solver.
Qed.

Lemma guarded_candidates_long (P lang dom : string) :
  (2 < String.length lang)%nat →
  guarded_candidates P lang dom = spec_candidates P lang dom.
Proof.
  intros Hl. unfold guarded_candidates, spec_candidates.
  by apply Nat.ltb_lt in Hl as ->.
Qed.

Lemma LocaleB_findExt_spec (d : disk) (l : LocaleB.Locale) (dom : string)
    (k : kind) :
  let cs := candidates_ext (LocaleB.path l) (LocaleB.lang l) dom k
              (2 <? String.length (LocaleB.lang l))%nat in
  LocaleB.findExt d l dom (ext_of k) =
  (EvStat <$> probed d cs, Ok (from_option snd "" (first_existing d cs))).
Proof.
  cbn zeta. unfold LocaleB.findExt, LocaleB.if_long, try_stat, os_Stat, slice2,
    candidates_ext, first_existing, prefix2.
  destruct (2 <? String.length (LocaleB.lang l))%nat eqn:Hlen.
  - assert ((String.length (LocaleB.lang l) <? 2)%nat = false) as ->.
    { apply Nat.ltb_ge. apply Nat.ltb_lt in Hlen. lia. }
    cbn.
    case_stats d.
  - cbn.
    case_stats d.
Qed.

End Candidates.

(** ** What one call of [AddDomain] does *)

Section AddDomain.
Context `{Runtime}.

Lemma LocaleB_save_domain_spec (l : LocaleB.Locale) (dom : string)
    (tr : Translator.t) :
  LocaleB.save_domain l dom tr =
  ([EvLock MuLocale; EvStore dom; EvUnlock MuLocale], Ok (savedB l dom tr)).
Proof.
  unfold LocaleB.save_domain, savedB. destruct l as [p g [m|] dd]; cbn;
    by destruct (decide (dd = "")).
Qed.

(** The map-based [AddDomain] probes the guarded candidates in order,
    parses the first file that exists and saves it under the lock; it
    never panics. *)
Lemma LocaleB_AddDomain_spec (d : disk) (l : LocaleB.Locale) (dom : string) :
  let cs := guarded_candidates (LocaleB.path l) (LocaleB.lang l) dom in
  LocaleB.AddDomain d l dom =
  match first_existing d cs with
  | Some c => ((EvStat <$> probed d cs) ++ load_eventsB dom c,
               Ok (savedB l dom (parsed d c.1 c.2)))
  | None => (EvStat <$> probed d cs, Ok l)
  end.
Proof.
  cbn zeta. unfold LocaleB.AddDomain, guarded_candidates.
  change "mo" with (ext_of Mo). change "po" with (ext_of Po).
  rewrite !LocaleB_findExt_spec, first_existing_app, probed_app.
  set (w := (2 <? String.length (LocaleB.lang l))%nat).
  destruct (first_existing d (candidates_ext _ _ dom Mo w)) as [[k f]|] eqn:Hmo.
  - apply first_existing_Some in Hmo as [[-> Hf]%candidates_ext_nonempty _].
    rewrite bind_Ok. cbn [from_option snd]. rewrite decide_True by done.
    unfold ParseFile. rewrite bind_Ok, LocaleB_save_domain_spec.
    unfold trace, result. done.
  - rewrite bind_Ok. cbn [from_option]. rewrite decide_False by (intros Hne; by apply Hne).
    rewrite bind_Ok.
    destruct (first_existing d (candidates_ext _ _ dom Po w)) as [[k f]|] eqn:Hpo.
    + apply first_existing_Some in Hpo as [[-> Hf]%candidates_ext_nonempty _].
      unfold trace, result. cbn [from_option fst snd].
      rewrite decide_True by done.
      unfold ParseFile. rewrite bind_Ok, LocaleB_save_domain_spec.
      unfold trace, result. cbn [fst snd].
      rewrite fmap_app, <- !app_assoc. by rewrite (probed_none _ _ Hmo).
    + unfold trace, result. cbn [from_option fst snd].
      rewrite decide_False by (intros Hne; by apply Hne).
      unfold mret, M_ret. cbn [fst snd].
      by rewrite fmap_app, app_nil_r, (probed_none _ _ Hmo).
Qed.

Lemma candidatesA_ext_nonempty (l : LocaleA.Locale) (dom lang' : string)
    (k k' : kind) (f : string) :
  (k', f) ∈ candidatesA_ext l dom lang' k → k' = k ∧ f ≠ "".
Proof.
  unfold candidatesA_ext. intros Hin.
  assert (∀ es, dom +:+ "." +:+ ext_of k ∈ es → path_Join es ≠ "") as Hj.
  { intros es Hes. eapply path_Join_nonempty; [done |].
    apply file_name_nonempty. }
  set_unfold; destruct_or!; simplify_eq; (split; [done |]); apply Hj;
    set_solver.
Qed.

Lemma LocaleA_findExt_spec (d : disk) (l : LocaleA.Locale)
    (dom lang' : string) (k : kind) :
  let cs := candidatesA_ext l dom lang' k in
  LocaleA.findExt d l dom (ext_of k) lang' =
  (EvStat <$> probed d cs, Ok (from_option snd "" (first_existing d cs))).
Proof.
  cbn zeta. unfold LocaleA.findExt, try_stat, os_Stat, candidatesA_ext,
    first_existing.
  cbn.
  case_stats d.
Qed.

Lemma LocaleA_nextAddDomain_spec (l : LocaleA.Locale) (dom : string)
    (tr : Translator.t) :
  LocaleA.nextAddDomain l dom tr =
  ([EvLock MuLocale; EvUnlock MuLocale; EvStore dom],
   Ok (savedA l dom (Some tr))).
Proof.
  unfold LocaleA.nextAddDomain, savedA. destruct l as [p g m dd]; cbn;
    by destruct (decide (dd = "")).
Qed.

(** What happens once [findExt] has answered: the file is parsed and
    saved, or the rest [k] of [AddDomain] runs. *)
Lemma LocaleA_found_or_next (d : disk) (l : LocaleA.Locale)
    (dom lang' : string) (kd : kind) (k : M LocaleA.Locale) :
  let cs := candidatesA_ext l dom lang' kd in
  (file ← LocaleA.findExt d l dom (ext_of kd) lang';
   if decide (file ≠ "") then
     poObj ← ParseFile d kd file;
     LocaleA.nextAddDomain l dom poObj
   else k) =
  match first_existing d cs with
  | Some c => ((EvStat <$> probed d cs) ++ load_eventsA dom c,
               Ok (savedA l dom (Some (parsed d c.1 c.2))))
  | None => ((EvStat <$> cs.*2) ++ trace k, result k)
  end.
Proof.
  cbn zeta. rewrite LocaleA_findExt_spec, bind_Ok.
  destruct (first_existing d _) as [[k' f]|] eqn:Hf.
  - apply first_existing_Some in Hf as [[-> Hf]%candidatesA_ext_nonempty _].
    cbn [from_option snd]. rewrite decide_True by done.
    unfold ParseFile. rewrite bind_Ok, LocaleA_nextAddDomain_spec.
    unfold trace, result. done.
  - cbn [from_option]. rewrite decide_False by (intros Hne; by apply Hne).
    by rewrite (probed_none _ _ Hf).
Qed.

(** The sync.Map [AddDomain] probes the tag candidates, [.po] first; when
    none exists it slices the tag, which panics for a tag shorter than
    two characters, and probes the prefix candidates. *)
Lemma LocaleA_AddDomain_spec (d : disk) (l : LocaleA.Locale) (dom : string) :
  let c1 := candidatesA_tag l dom in
  let c2 := candidatesA_prefix l dom in
  LocaleA.AddDomain d l dom =
  match first_existing d c1 with
  | Some c => ((EvStat <$> probed d c1) ++ load_eventsA dom c,
               Ok (savedA l dom (Some (parsed d c.1 c.2))))
  | None =>
      if (String.length (LocaleA.lang l) <? 2)%nat
      then (EvStat <$> c1.*2, Panic)
      else match first_existing d c2 with
           | Some c => ((EvStat <$> c1.*2 ++ probed d c2) ++ load_eventsA dom c,
                        Ok (savedA l dom (Some (parsed d c.1 c.2))))
           | None => (EvStat <$> c1.*2 ++ c2.*2, Ok l)
           end
  end.
Proof.
  cbn zeta. unfold LocaleA.AddDomain, candidatesA_tag, candidatesA_prefix.
  change "mo" with (ext_of Mo). change "po" with (ext_of Po).
  rewrite LocaleA_found_or_next, first_existing_app, probed_app.
  destruct (first_existing d (candidatesA_ext l dom (LocaleA.lang l) Po)) as [c|] eqn:Hpo;
    [done |].
  rewrite LocaleA_found_or_next.
  destruct (first_existing d (candidatesA_ext l dom (LocaleA.lang l) Mo)) as [c|] eqn:Hmo.
  { unfold trace, result. by rewrite fmap_app, <- !app_assoc. }
  unfold slice2.
  destruct (String.length (LocaleA.lang l) <? 2)%nat.
  { unfold panic. rewrite bind_Panic. unfold trace, result. cbn [fst snd].
    by rewrite !fmap_app, app_nil_r. }
  rewrite bind_mret.
  fold (prefix2 (LocaleA.lang l)).
  rewrite LocaleA_found_or_next, first_existing_app, probed_app.
  destruct (first_existing d (candidatesA_ext l dom (prefix2 _) Po)) as [c|] eqn:Hpo2.
  { unfold trace, result. cbn [fst snd].
    by rewrite !fmap_app, <- !app_assoc. }
  rewrite bind_mret. fold (prefix2 (LocaleA.lang l)).
  rewrite LocaleA_found_or_next.
  destruct (first_existing d (candidatesA_ext l dom (prefix2 _) Mo)) as [c|] eqn:Hmo2.
  { unfold trace, result. cbn [fst snd].
    by rewrite !fmap_app, <- !app_assoc. }
  unfold trace, result, mret, M_ret. cbn [fst snd].
  by rewrite !fmap_app, <- !app_assoc, app_nil_r.
Qed.

End AddDomain.

(** ** Reading traces *)

Lemma stat_events_app (a b : list event) :
  stat_events (a ++ b) = stat_events a ++ stat_events b.
Proof. apply omap_app. Qed.

Lemma parse_events_app (a b : list event) :
  parse_events (a ++ b) = parse_events a ++ parse_events b.
Proof. apply omap_app. Qed.

Lemma store_events_app (a b : list event) :
  store_events (a ++ b) = store_events a ++ store_events b.
Proof. apply omap_app. Qed.

Lemma stat_events_stats (fs : list string) : stat_events (EvStat <$> fs) = fs.
Proof. induction fs as [|f fs IH]; cbn; [done | by f_equal]. Qed.

Lemma parse_events_stats (fs : list string) : parse_events (EvStat <$> fs) = [].
Proof. by induction fs. Qed.

Lemma store_events_stats (fs : list string) : store_events (EvStat <$> fs) = [].
Proof. by induction fs. Qed.

Lemma parses_locked_stats (held : bool) (fs : list string) (t : list event) :
  parses_locked held ((EvStat <$> fs) ++ t) = parses_locked held t.
Proof. by induction fs. Qed.

Lemma LocaleB_AddDomain_probes `{Runtime} (d : disk) (l : LocaleB.Locale)
    (dom : string) :
  let cs := guarded_candidates (LocaleB.path l) (LocaleB.lang l) dom in
  let t := trace (LocaleB.AddDomain d l dom) in
  stat_events t = probed d cs ∧
  parse_events t = option_list (first_existing d cs) ∧
  result (LocaleB.AddDomain d l dom)
    = Ok (match first_existing d cs with
          | Some c => savedB l dom (parsed d c.1 c.2)
          | None => l
          end).
Proof.
  cbn zeta. rewrite LocaleB_AddDomain_spec.
  split_and!;
    destruct (first_existing d _) as [[k f]|]; unfold trace, result; cbn [fst snd];
    rewrite ?stat_events_app, ?parse_events_app, ?stat_events_stats,
      ?parse_events_stats; cbn; by rewrite ?app_nil_r.
Qed.

(** ** File resolution order *)

(** With both [default.po] and [default.mo] under
    [/p/en_US/LC_MESSAGES], the order of the spec finds the [.mo] file,
    while the sync.Map Locale probes and parses the [.po] file.  With the
    two-letter tag [fr] and no file on disk, the map-based Locale probes
    four files, not the eight of the spec. *)
Lemma AddDomain_resolution_order_differs :
  let d := disk_of ["/p/en_US/LC_MESSAGES/default.mo";
                    "/p/en_US/LC_MESSAGES/default.po"] in
  let t := trace (LocaleA.AddDomain d (localeA_fresh "/p" "en_US") "default") in
  first_existing d (spec_candidates "/p" "en_US" "default")
    = Some (Mo, "/p/en_US/LC_MESSAGES/default.mo") ∧
  stat_events t = ["/p/en_US/LC_MESSAGES/default.po"] ∧
  stat_events t ≠ probed d (spec_candidates "/p" "en_US" "default") ∧
  parse_events t = [(Po, "/p/en_US/LC_MESSAGES/default.po")] ∧
  stat_events
    (trace (LocaleB.AddDomain (disk_of []) (localeB_fresh "/p" "fr") "default"))
    ≠ probed (disk_of []) (spec_candidates "/p" "fr" "default").
Proof. cbn zeta. repeat split; vm_compute; congruence. Qed.

(** C3, as the code has it.  The map-based [AddDomain] probes the
    candidates in the order of the spec, [.mo] before [.po], the two
    prefix candidates only for a tag longer than two characters; it stops
    at the first file that exists, parses that file and stores its
    catalog.  For a tag longer than two characters the candidates are
    exactly the eight of the spec. *)
Theorem AddDomain_map_probes_in_spec_order `{Runtime}
    (d : disk) (l : LocaleB.Locale) (dom : string) :
  let cs := guarded_candidates (LocaleB.path l) (LocaleB.lang l) dom in
  let t := trace (LocaleB.AddDomain d l dom) in
  stat_events t = probed d cs ∧
  parse_events t = option_list (first_existing d cs) ∧
  result (LocaleB.AddDomain d l dom)
    = Ok (match first_existing d cs with
          | Some c => savedB l dom (parsed d c.1 c.2)
          | None => l
          end) ∧
  ((2 < String.length (LocaleB.lang l))%nat →
   cs = spec_candidates (LocaleB.path l) (LocaleB.lang l) dom).
Proof.
  cbn zeta. destruct (LocaleB_AddDomain_probes d l dom) as (Hs & Hp & Hr).
  split_and!; [done.. | apply guarded_candidates_long].
Qed.

Lemma AddDomain_map_probes_in_spec_order_witness :
  let d := disk_of ["/p/fr/LC_MESSAGES/app.mo"] in
  let l := localeB_fresh "/p" "fr_CA" in
  (2 < String.length (LocaleB.lang l))%nat ∧
  stat_events (trace (LocaleB.AddDomain d l "app"))
    = ["/p/fr_CA/LC_MESSAGES/app.mo"; "/p/fr/LC_MESSAGES/app.mo"] ∧
  parse_events (trace (LocaleB.AddDomain d l "app"))
    = [(Mo, "/p/fr/LC_MESSAGES/app.mo")] ∧
  guarded_candidates "/p" "fr_CA" "app" = spec_candidates "/p" "fr_CA" "app".
Proof.
  cbn zeta.
  pose proof (AddDomain_map_probes_in_spec_order
    (disk_of ["/p/fr/LC_MESSAGES/app.mo"]) (localeB_fresh "/p" "fr_CA") "app")
    as (Hs & Hp & _ & Hc).
  split; [cbn; lia |]. split; [rewrite Hs; reflexivity |].
  split; [rewrite Hp; reflexivity |].
  apply Hc. cbn. lia.
Defined.

(** ** Short language tags *)

(** C4, at the failing input.  The sync.Map Locale with the tag [C] and
    no file on disk: [AddDomain] probes the four tag candidates and then
    panics on [l.lang[:2]]. *)
Theorem AddDomain_syncmap_panics_on_short_tag :
  LocaleA.AddDomain (disk_of []) (localeA_fresh "/p" "C") "default" =
  ([EvStat "/p/C/LC_MESSAGES/default.po"; EvStat "/p/C/default.po";
    EvStat "/p/C/LC_MESSAGES/default.mo"; EvStat "/p/C/default.mo"],
   Panic).
Proof. vm_compute. reflexivity. Qed.

(** For every tag shorter than two characters, the sync.Map [AddDomain]
    panics as soon as no tag candidate exists. *)
Lemma LocaleA_AddDomain_short_tag `{Runtime} (d : disk) (l : LocaleA.Locale)
    (dom : string) :
  (String.length (LocaleA.lang l) < 2)%nat →
  first_existing d (candidatesA_tag l dom) = None →
  result (LocaleA.AddDomain d l dom) = Panic.
Proof.
  intros Hl Hn. rewrite LocaleA_AddDomain_spec, Hn.
  by apply Nat.ltb_lt in Hl as ->.
Qed.

(** The map-based [AddDomain] never panics, and for a tag of at most two
    characters it probes no path built from a slice of the tag: only the
    two tag candidates of each extension. *)
Lemma LocaleB_AddDomain_short_tag `{Runtime} (d : disk) (l : LocaleB.Locale)
    (dom : string) :
  (String.length (LocaleB.lang l) ≤ 2)%nat →
  (∃ l', result (LocaleB.AddDomain d l dom) = Ok l') ∧
  stat_events (trace (LocaleB.AddDomain d l dom)) =
  probed d
    (candidates_ext (LocaleB.path l) (LocaleB.lang l) dom Mo false ++
     candidates_ext (LocaleB.path l) (LocaleB.lang l) dom Po false).
Proof.
  intros Hl.
  destruct (LocaleB_AddDomain_probes d l dom) as (Hs & _ & Hr).
  split; [eauto |]. rewrite Hs. unfold guarded_candidates.
  by apply Nat.ltb_ge in Hl as ->.
Qed.

Lemma LocaleB_AddDomain_returns `{Runtime} (d : disk) (l : LocaleB.Locale)
    (dom : string) :
  ∃ l', result (LocaleB.AddDomain d l dom) = Ok l'.
Proof.
  destruct (LocaleB_AddDomain_probes d l dom) as (_ & _ & Hr).
  eauto.
Qed.

(** ** Parsing and the Locale's lock *)

(** With [default.po] on disk, both Locales parse the file before they
    take the lock: the parse is not under the lock. *)
Lemma AddDomain_parses_outside_lock :
  let d := disk_of ["/p/en_US/LC_MESSAGES/default.po"] in
  let ta := trace (LocaleA.AddDomain d (localeA_fresh "/p" "en_US") "default") in
  let tb := trace (LocaleB.AddDomain d (localeB_fresh "/p" "en_US") "default") in
  ta = [EvStat "/p/en_US/LC_MESSAGES/default.po";
        EvParse Po "/p/en_US/LC_MESSAGES/default.po";
        EvLock MuLocale; EvUnlock MuLocale; EvStore "default"] ∧
  parses_locked false ta = false ∧
  parses_locked false tb = false.
Proof. cbn zeta. repeat split; vm_compute; reflexivity. Qed.

(** C6, as the code has it.  A call of [AddDomain] first probes files,
    without the lock; when it finds one it parses the file, still without
    the lock, and only then locks the Locale.  The sync.Map Locale holds
    the lock while it sets the default domain and stores the catalog
    after the unlock; the map-based Locale stores the catalog under the
    lock.  In both, the catalog is stored after its parse has ended. *)
Theorem AddDomain_parses_then_locks `{Runtime}
    (d : disk) (la : LocaleA.Locale) (lb : LocaleB.Locale) (dom : string) :
  (∃ probes : list string,
     trace (LocaleA.AddDomain d la dom) = EvStat <$> probes ∨
     ∃ (k : kind) (f : string),
       trace (LocaleA.AddDomain d la dom) =
       (EvStat <$> probes) ++
       [EvParse k f; EvLock MuLocale; EvUnlock MuLocale; EvStore dom]) ∧
  (∃ probes : list string,
     trace (LocaleB.AddDomain d lb dom) = EvStat <$> probes ∨
     ∃ (k : kind) (f : string),
       trace (LocaleB.AddDomain d lb dom) =
       (EvStat <$> probes) ++
       [EvParse k f; EvLock MuLocale; EvStore dom; EvUnlock MuLocale]).
Proof.
  split.
  - rewrite LocaleA_AddDomain_spec.
    destruct (first_existing d (candidatesA_tag la dom)) as [[k f]|].
    { eexists. right. by exists k, f. }
    destruct (String.length (LocaleA.lang la) <? 2)%nat.
    { eexists. by left. }
    destruct (first_existing d (candidatesA_prefix la dom)) as [[k f]|].
    + eexists. right. by exists k, f.
    + eexists. by left.
  - rewrite LocaleB_AddDomain_spec.
    destruct (first_existing d _) as [[k f]|].
    + eexists. right. by exists k, f.
    + eexists. by left.
Qed.

(** Two threads that call [AddDomain("default")] on one map-based Locale
    can both parse the file before either takes the lock: the merge
    below is the trace of the call for each thread, and the mutex allows
    it. *)
Example two_AddDomain_calls_both_parse :
  let d := disk_of ["/p/en_US/LC_MESSAGES/default.mo"] in
  let t := trace (LocaleB.AddDomain d (localeB_fresh "/p" "en_US") "default") in
  let f := "/p/en_US/LC_MESSAGES/default.mo" in
  let m := [(false, EvStat f); (true, EvStat f);
            (false, EvParse Mo f); (true, EvParse Mo f);
            (false, EvLock MuLocale); (false, EvStore "default");
            (false, EvUnlock MuLocale);
            (true, EvLock MuLocale); (true, EvStore "default");
            (true, EvUnlock MuLocale)] in
  thread_trace false m = t ∧ thread_trace true m = t ∧
  lock_respecting None m = true.
Proof. cbn zeta. repeat split; vm_compute; reflexivity. Qed.

(** ** No candidate file on disk *)

(** C7, at the failing input.  The sync.Map Locale with the tag [C]:
    none of the files it could probe exists, and [AddDomain] does not
    return; it panics on [l.lang[:2]]. *)
Theorem AddDomain_syncmap_no_file_short_tag_panics :
  let d := disk_of [] in
  let l := LocaleA.mkLocale "/usr/local/share/locale" "C" ∅ "" in
  forallb (λ c, negb (stat_ok d c.2))
    (candidatesA_tag l "app" ++ candidatesA_prefix l "app") = true ∧
  result (LocaleA.AddDomain d l "app") = Panic.
Proof. cbn zeta. split; vm_compute; reflexivity. Qed.

Section NoFile.
Context `{Runtime}.

(** Without a candidate on disk the map-based [AddDomain] returns the
    Locale as it was. *)
Lemma LocaleB_AddDomain_no_file (d : disk) (l : LocaleB.Locale) (dom : string) :
  first_existing d (guarded_candidates (LocaleB.path l) (LocaleB.lang l) dom)
    = None →
  result (LocaleB.AddDomain d l dom) = Ok l ∧
  parse_events (trace (LocaleB.AddDomain d l dom)) = [] ∧
  store_events (trace (LocaleB.AddDomain d l dom)) = [].
Proof.
  intros Hn. rewrite LocaleB_AddDomain_spec, Hn. unfold trace, result.
  cbn [fst snd]. by rewrite parse_events_stats, store_events_stats.
Qed.

(** A domain that was not in the map before is not in it afterwards, and
    lookups against it return their argument. *)
Lemma LocaleB_AddDomain_no_file_passthrough (d : disk) (l l' : LocaleB.Locale)
    (dom str plural : string) (n : Z) :
  first_existing d (guarded_candidates (LocaleB.path l) (LocaleB.lang l) dom)
    = None →
  LocaleB.Domains_lookup l dom = None →
  result (LocaleB.AddDomain d l dom) = Ok l' →
  LocaleB.Domains_lookup l' dom = None ∧
  LocaleB.defaultDomain l' = LocaleB.defaultDomain l ∧
  result (LocaleB.DNGettext l' dom str plural n) = Ok plural.
Proof.
  intros Hn Hd Hr. apply LocaleB_AddDomain_no_file in Hn as (Hr' & _).
  rewrite Hr' in Hr. injection Hr as <-.
  split_and!; [done.. | by apply LocaleB_DNGettext_missing].
Qed.

(** The sync.Map [AddDomain] does the same when the tag has at least two
    characters. *)
Lemma LocaleA_AddDomain_no_file (d : disk) (l : LocaleA.Locale) (dom : string) :
  (2 ≤ String.length (LocaleA.lang l))%nat →
  first_existing d (candidatesA_tag l dom) = None →
  first_existing d (candidatesA_prefix l dom) = None →
  result (LocaleA.AddDomain d l dom) = Ok l ∧
  parse_events (trace (LocaleA.AddDomain d l dom)) = [] ∧
  store_events (trace (LocaleA.AddDomain d l dom)) = [].
Proof.
  intros Hl H1 H2. rewrite LocaleA_AddDomain_spec, H1, H2.
  apply Nat.ltb_ge in Hl as ->. unfold trace, result. cbn [fst snd].
  by rewrite parse_events_stats, store_events_stats.
Qed.

End NoFile.

(** ** The default domain *)

Lemma first_nonempty_cons (s : string) (names : list string) :
  first_nonempty (s :: names) = if decide (s = "") then first_nonempty names else s.
Proof.
  unfold first_nonempty. cbn.
  destruct (String.eqb_spec s ""); by case_decide.
Qed.

Section DefaultDomain.
Context `{Runtime}.

(** One add operation either stores nothing and leaves the Locale, or
    stores one name and saves under it. *)
Lemma stepA_stores (l l' : LocaleA.Locale) (o : opA) :
  result (stepA l o) = Ok l' →
  (store_events (trace (stepA l o)) = [] ∧ l' = l) ∨
  (∃ dom tr, store_events (trace (stepA l o)) = [dom] ∧ l' = savedA l dom tr).
Proof.
  destruct o as [d dom | dom tr]; cbn [stepA].
  - rewrite LocaleA_AddDomain_spec.
    destruct (first_existing d (candidatesA_tag l dom)) as [c|].
    { unfold trace, result. cbn [fst snd]. intros [= <-]. right.
      eexists _, _. split; [| done].
      by rewrite store_events_app, store_events_stats. }
    destruct (String.length (LocaleA.lang l) <? 2)%nat; [done |].
    destruct (first_existing d (candidatesA_prefix l dom)) as [c|].
    + unfold trace, result. cbn [fst snd]. intros [= <-]. right.
      eexists _, _. split; [| done].
      by rewrite store_events_app, store_events_stats.
    + unfold trace, result. cbn [fst snd]. intros [= <-]. left.
      by rewrite store_events_stats.
  - unfold LocaleA.AddTranslator, savedA. cbn. intros [= <-]. right.
    exists dom, tr. split; [done |].
    destruct l as [p g m dd]; cbn. by destruct (decide (dd = "")).
Qed.

Lemma AddDomainB_stores (d : disk) (l l' : LocaleB.Locale) (dom : string) :
  result (LocaleB.AddDomain d l dom) = Ok l' →
  (store_events (trace (LocaleB.AddDomain d l dom)) = [] ∧ l' = l) ∨
  (∃ tr, store_events (trace (LocaleB.AddDomain d l dom)) = [dom] ∧
         l' = savedB l dom tr).
Proof.
  rewrite LocaleB_AddDomain_spec.
  destruct (first_existing d _) as [c|]; unfold trace, result; cbn [fst snd];
    intros [= <-].
  - right. eexists. split; [| done].
    by rewrite store_events_app, store_events_stats.
  - left. by rewrite store_events_stats.
Qed.

Lemma runA_defaultDomain (ops : list opA) (l l' : LocaleA.Locale) :
  result (runA l ops) = Ok l' →
  LocaleA.defaultDomain l' =
  if decide (LocaleA.defaultDomain l = "")
  then first_nonempty (store_events (trace (runA l ops)))
  else LocaleA.defaultDomain l.
Proof.
  unfold runA. revert l. induction ops as [|o ops IH]; intros l; cbn [forM].
  - cbn. intros [= <-]. by case_decide.
  - rewrite result_bind, trace_bind, store_events_app.
    destruct (result (stepA l o)) as [l1|] eqn:Hstep; [| done].
    intros Hrun. rewrite (IH _ Hrun).
    apply stepA_stores in Hstep as [[-> ->] | (dom & tr & -> & ->)]; [done |].
    cbn [app savedA LocaleA.defaultDomain]. rewrite first_nonempty_cons.
    repeat case_decide; congruence.
Qed.

Lemma runB_defaultDomain (ops : list (disk * string)) (l l' : LocaleB.Locale) :
  result (runB l ops) = Ok l' →
  LocaleB.defaultDomain l' =
  if decide (LocaleB.defaultDomain l = "")
  then first_nonempty (store_events (trace (runB l ops)))
  else LocaleB.defaultDomain l.
Proof.
  unfold runB. revert l. induction ops as [|o ops IH]; intros l; cbn [forM].
  - cbn. intros [= <-]. by case_decide.
  - rewrite result_bind, trace_bind, store_events_app.
    destruct (result (LocaleB.AddDomain o.1 l o.2)) as [l1|] eqn:Hstep; [| done].
    intros Hrun. rewrite (IH _ Hrun).
    apply AddDomainB_stores in Hstep as [[-> ->] | (tr & -> & ->)]; [done |].
    cbn [app savedB LocaleB.defaultDomain]. rewrite first_nonempty_cons.
    repeat case_decide; congruence.
Qed.

End DefaultDomain.

(** A translator added under the empty name is the first domain ever
    added, but it leaves the default domain empty, so the next domain
    added takes the default over: [GetDomain] answers "default". *)
Lemma empty_named_domain_does_not_stay_default :
  let l := localeA_fresh "/p" "en_US" in
  let ops := [OpAddTranslatorA "" (Some (tr_const "x" []));
              OpAddTranslatorA "default" (Some (tr_const "y" []))] in
  LocaleA.defaultDomain l = "" ∧
  head (store_events (trace (runA l ops))) = Some "" ∧
  ∃ l', result (runA l ops) = Ok l' ∧
        result (LocaleA.GetDomain l') = Ok "default".
Proof.
  cbn zeta. split; [reflexivity |]. split; [vm_compute; reflexivity |].
  eexists. split; [vm_compute; reflexivity |]. reflexivity.
Qed.

(** C8, as the code has it.  After any sequence of [AddDomain] and
    [AddTranslator] calls on a Locale whose default domain was empty,
    [GetDomain] returns the first non-empty name that was stored (the
    empty string when there is none); a default domain that is not empty
    is never changed by these calls.  [SetDomain] overrides it. *)
Theorem first_named_domain_is_default `{Runtime}
    (la la' : LocaleA.Locale) (opsA : list opA)
    (lb lb' : LocaleB.Locale) (opsB : list (disk * string)) :
  result (runA la opsA) = Ok la' →
  result (runB lb opsB) = Ok lb' →
  result (LocaleA.GetDomain la') =
    Ok (if decide (LocaleA.defaultDomain la = "")
        then first_nonempty (store_events (trace (runA la opsA)))
        else LocaleA.defaultDomain la) ∧
  result (LocaleB.GetDomain lb') =
    Ok (if decide (LocaleB.defaultDomain lb = "")
        then first_nonempty (store_events (trace (runB lb opsB)))
        else LocaleB.defaultDomain lb) ∧
  (∀ dom : string,
     result (l ← LocaleA.SetDomain la' dom; LocaleA.GetDomain l) = Ok dom ∧
     result (l ← LocaleB.SetDomain lb' dom; LocaleB.GetDomain l) = Ok dom).
Proof.
  intros Ha Hb. split_and!.
  - unfold LocaleA.GetDomain. cbn. f_equal. by apply runA_defaultDomain.
  - unfold LocaleB.GetDomain. cbn. f_equal. by apply runB_defaultDomain.
  - intros dom. split; reflexivity.
Qed.

Lemma first_named_domain_is_default_witness :
  let d := disk_of ["/p/en_US/LC_MESSAGES/default.mo";
                    "/p/en_US/LC_MESSAGES/extras.po"] in
  let opsA := [OpAddDomainA d "missing"; OpAddDomainA d "default";
               OpAddTranslatorA "other" None; OpAddDomainA d "extras"] in
  let opsB := [(d, "missing"); (d, "extras"); (d, "default")] in
  store_events (trace (runA (localeA_fresh "/p" "en_US") opsA))
    = ["default"; "other"; "extras"] ∧
  (∃ la', result (runA (localeA_fresh "/p" "en_US") opsA) = Ok la' ∧
          result (LocaleA.GetDomain la') = Ok "default") ∧
  (∃ lb', result (runB (localeB_fresh "/p" "en_US") opsB) = Ok lb' ∧
          result (LocaleB.GetDomain lb') = Ok "extras").
Proof.
  cbn zeta. split; [vm_compute; reflexivity |].
  set (d := disk_of _).
  set (opsA := [OpAddDomainA d "missing"; _; _; _]).
  set (opsB := [(d, "missing"); _; _]).
  destruct (result (runA (localeA_fresh "/p" "en_US") opsA)) as [la'|] eqn:Ha;
    [| vm_compute in Ha; discriminate].
  destruct (result (runB (localeB_fresh "/p" "en_US") opsB)) as [lb'|] eqn:Hb;
    [| vm_compute in Hb; discriminate].
  destruct (first_named_domain_is_default _ _ _ _ _ _ Ha Hb) as (Hga & Hgb & _).
  split.
  - exists la'. split; [done |]. rewrite Hga. vm_compute. reflexivity.
  - exists lb'. split; [done |]. rewrite Hgb. vm_compute. reflexivity.
Defined.

(** ** Marshalling a Locale and reading it back *)

Section Marshal.
Context `{LocaleA.Gob}.

Lemma marshal_range_ok (kvs : list (string * option Translator.t))
    (acc : gmap string (list Byte.byte)) :
  NoDup kvs.*1 →
  (∀ k v, (k, v) ∈ kvs →
     ∃ t b, v = Some t ∧ Translator.MarshalBinary t = (b, false)) →
  ∃ acc', LocaleA.marshal_range kvs acc = ([], Ok acc') ∧
    (∀ k, k ∉ kvs.*1 → acc' !! k = acc !! k) ∧
    (∀ k t b, (k, Some t) ∈ kvs → Translator.MarshalBinary t = (b, false) →
       acc' !! k = Some b).
Proof.
  revert acc. induction kvs as [|[k0 v0] kvs IH]; intros acc Hnd Hok.
  - exists acc. split; [done |]. split; [done |]. intros k t b Hin.
    by apply elem_of_nil in Hin.
  - cbn in Hnd. apply NoDup_cons in Hnd as [Hk0 Hnd].
    destruct (Hok k0 v0) as (t0 & b0 & -> & Hm0); [by left |].
    destruct (IH (<[k0 := b0]> acc) Hnd) as (acc' & Hrun & Hout & Hin).
    { intros k v Hkv. apply (Hok k). by right. }
    exists acc'. cbn [LocaleA.marshal_range LocaleA.assert_Translator].
    rewrite bind_mret, Hm0. split; [done |]. split.
    + intros k Hk. cbn in Hk. apply not_elem_of_cons in Hk as [Hne Hk].
      by rewrite (Hout k Hk), lookup_insert_ne.
    + intros k t b Hkt Hm. apply elem_of_cons in Hkt as [[= -> ->] | Hkt].
      * rewrite (Hout k0 Hk0), lookup_insert_eq. congruence.
      * by eapply Hin.
Qed.

Lemma unmarshal_range_ok (kvs : list (string * list Byte.byte))
    (l : LocaleA.Locale) :
  NoDup kvs.*1 →
  (∀ k v, (k, v) ∈ kvs → is_Some (LocaleA.gob_Decode_translator v)) →
  ∃ l', LocaleA.unmarshal_range kvs l = (EvStore <$> kvs.*1, Ok (l', false)) ∧
    LocaleA.path l' = LocaleA.path l ∧
    LocaleA.lang l' = LocaleA.lang l ∧
    LocaleA.defaultDomain l' = LocaleA.defaultDomain l ∧
    (∀ k, k ∉ kvs.*1 → LocaleA.Domains l' !! k = LocaleA.Domains l !! k) ∧
    (∀ k v te, (k, v) ∈ kvs → LocaleA.gob_Decode_translator v = Some te →
       LocaleA.Domains l' !! k = Some (Some (LocaleA.GetTranslator te))).
Proof.
  revert l. induction kvs as [|[k0 v0] kvs IH]; intros l Hnd Hok.
  - exists l. split_and!; try done. intros k v te Hin.
    by apply elem_of_nil in Hin.
  - cbn in Hnd. apply NoDup_cons in Hnd as [Hk0 Hnd].
    destruct (Hok k0 v0) as [te0 Hd0]; [by left |].
    destruct (IH (LocaleA.set_Domains l
                    (<[k0 := Some (LocaleA.GetTranslator te0)]>
                       (LocaleA.Domains l))) Hnd)
      as (l' & Hrun & Hp & Hl & Hdd & Hout & Hin).
    { intros k v Hkv. apply (Hok k). by right. }
    exists l'. cbn [LocaleA.unmarshal_range]. rewrite Hd0.
    unfold emit. rewrite bind_Ok, Hrun. unfold trace, result. cbn [fst snd].
    split_and!; try done.
    + intros k Hk. cbn in Hk. apply not_elem_of_cons in Hk as [Hne Hk].
      rewrite (Hout k Hk). cbn. by rewrite lookup_insert_ne.
    + intros k v te Hkv Hd. apply elem_of_cons in Hkv as [[= -> ->] | Hkv].
      * rewrite (Hout k0 Hk0). cbn. rewrite lookup_insert_eq. congruence.
      * by eapply Hin.
Qed.

End Marshal.

(** C9. When every domain of a Locale marshals without error,
    [MarshalBinary] returns, and when it returns a blob without error,
    [UnmarshalBinary] of that blob on a Locale without domains returns
    without error a Locale with the same language, path, default domain
    and set of domains, each domain with an equivalent catalog; neither
    call probes or parses a file.  The gob codec is taken to decode what
    it encoded, and the blob of each catalog to decode to an equivalent
    catalog. *)
Theorem Locale_marshal_roundtrip `{LocaleA.Gob} (l l0 : LocaleA.Locale) :
  (∀ obj b, LocaleA.gob_Encode obj = (b, false) →
            LocaleA.gob_Decode b = Some obj) →
  (∀ k v, LocaleA.Domains l !! k = Some v →
     ∃ t b te, v = Some t ∧ Translator.MarshalBinary t = (b, false) ∧
       LocaleA.gob_Decode_translator b = Some te ∧
       Translator.equiv (LocaleA.GetTranslator te) t) →
  LocaleA.Domains l0 = ∅ →
  ∃ blob err,
    result (LocaleA.MarshalBinary l) = Ok (blob, err) ∧
    io_events (LocaleA.MarshalBinary l) = [] ∧
    (err = false →
     ∃ l', result (LocaleA.UnmarshalBinary l0 blob) = Ok (l', false) ∧
       LocaleA.lang l' = LocaleA.lang l ∧
       LocaleA.path l' = LocaleA.path l ∧
       LocaleA.defaultDomain l' = LocaleA.defaultDomain l ∧
       dom (LocaleA.Domains l') = dom (LocaleA.Domains l) ∧
       (∀ k t, LocaleA.Domains l !! k = Some (Some t) →
          ∃ t', LocaleA.Domains l' !! k = Some (Some t') ∧
                Translator.equiv t' t) ∧
       io_events (LocaleA.UnmarshalBinary l0 blob) = []).
Proof.
  intros Hgob Htr Hl0.
  destruct (marshal_range_ok (map_to_list (LocaleA.Domains l)) ∅)
    as (doms & Hrun & Hout & Hin).
  { apply NoDup_fst_map_to_list. }
  { intros k v Hkv%elem_of_map_to_list.
    destruct (Htr k v Hkv) as (t & b & te & -> & Hb & _). eauto. }
  assert (∀ k b, doms !! k = Some b →
      ∃ t te, LocaleA.Domains l !! k = Some (Some t) ∧
        Translator.MarshalBinary t = (b, false) ∧
        LocaleA.gob_Decode_translator b = Some te ∧
        Translator.equiv (LocaleA.GetTranslator te) t) as Hdoms.
  { intros k b Hkb.
    destruct (LocaleA.Domains l !! k) as [v|] eqn:Hk.
    - destruct (Htr k v Hk) as (t & b' & te & -> & Hb & Hd & He).
      apply elem_of_map_to_list in Hk. rewrite (Hin k t b' Hk Hb) in Hkb.
      injection Hkb as <-. eauto 10.
    - rewrite Hout, lookup_empty in Hkb; [done |].
      intros ([k' v] & -> & Hkv%elem_of_map_to_list)%list_elem_of_fmap.
      cbn in Hk. congruence. }
  assert (LocaleA.MarshalBinary l =
          mret (LocaleA.gob_Encode
                  (LocaleA.mkLocaleEncoding (LocaleA.path l) (LocaleA.lang l)
                     doms (LocaleA.defaultDomain l)))) as HM.
  { unfold LocaleA.MarshalBinary. rewrite Hrun. apply (bind_mret doms). }
  rewrite HM. clear HM.
  destruct (LocaleA.gob_Encode _) as [blob err] eqn:Hm.
  exists blob, err. split; [done |]. split; [done |]. intros ->.
  apply Hgob in Hm.
  unfold LocaleA.UnmarshalBinary. rewrite Hm.
  cbn [LocaleA.Path LocaleA.Lang LocaleA.DefaultDomain LocaleA.EncDomains].
  destruct (unmarshal_range_ok (map_to_list doms)
              (LocaleA.mkLocale (LocaleA.path l) (LocaleA.lang l)
                 (LocaleA.Domains l0) (LocaleA.defaultDomain l)))
    as (l' & Hun & Hp & Hl & Hdd & Hout' & Hin').
  { apply NoDup_fst_map_to_list. }
  { intros k b Hkb%elem_of_map_to_list.
    destruct (Hdoms k b Hkb) as (t & te & _ & _ & Hd & _). by rewrite Hd. }
  exists l'. rewrite Hun. unfold io_events, trace, result. cbn [fst snd].
  split_and!; try done.
  - apply set_eq. intros k. rewrite !elem_of_dom.
    destruct (doms !! k) as [b|] eqn:Hkb.
    + destruct (Hdoms k b Hkb) as (t & te & Hk & _ & Hd & _).
      apply elem_of_map_to_list in Hkb.
      rewrite (Hin' k b te Hkb Hd), Hk. split; eauto.
    + rewrite Hout'.
      2:{ intros ([k' v] & -> & Hkv%elem_of_map_to_list)%list_elem_of_fmap.
          cbn in Hkb. congruence. }
      cbn. rewrite Hl0, lookup_empty.
      destruct (LocaleA.Domains l !! k) as [v|] eqn:Hk.
      * destruct (Htr k v Hk) as (t & b & te & -> & Hb & _).
        apply elem_of_map_to_list in Hk. rewrite (Hin k t b Hk Hb) in Hkb.
        done.
      * split; intros [? ?]; done.
  - intros k t Hk. destruct (Htr k _ Hk) as (t1 & b & te & [= <-] & Hb & Hd & He).
    exists (LocaleA.GetTranslator te). split; [| done].
    apply elem_of_map_to_list in Hk. eapply Hin'; [| done].
    apply elem_of_map_to_list. by eapply Hin.
  - clear. induction (map_to_list doms).*1 as [|k ks IH]; [done |]. cbn. done.
Qed.

Lemma Locale_marshal_roundtrip_witness :
  result (LocaleA.MarshalBinary locale_es) = Ok ([Byte.xff], false) ∧
  ∃ l', result (LocaleA.UnmarshalBinary (localeA_fresh "" "") [Byte.xff])
          = Ok (l', false) ∧
    LocaleA.lang l' = "es" ∧ LocaleA.path l' = "/p" ∧
    LocaleA.defaultDomain l' = "default" ∧
    dom (LocaleA.Domains l') = {["default"]}.
Proof.
  assert (result (LocaleA.MarshalBinary locale_es) = Ok ([Byte.xff], false))
    as Hm by (vm_compute; reflexivity).
  split; [exact Hm |].
  destruct (Locale_marshal_roundtrip locale_es (localeA_fresh "" ""))
    as (blob & err & Hr & _ & Hun).
  - intros obj b. cbn. case_decide as Ho; [| done]. intros [= <-].
    rewrite decide_True by done. by rewrite Ho.
  - intros k v. unfold locale_es. cbn [LocaleA.Domains].
    intros [<- <-]%lookup_singleton_Some.
    exists tr_hola, [Byte.x01], "Hola".
    split; [reflexivity |]. split; [reflexivity |].
    split; [vm_compute; reflexivity |]. repeat split.
  - reflexivity.
  - rewrite Hm in Hr. injection Hr as <- <-.
    destruct (Hun eq_refl) as (l' & Hr' & Hl & Hp & Hd & Hdom & _).
    exists l'. rewrite Hdom. unfold locale_es. cbn [LocaleA.Domains].
    rewrite dom_singleton_L. by split_and!.
Defined.

(** ** Lookups through the package facade *)

(** A lookup of the loaded domain [extras] through the map-based facade
    probes the eight candidate files of the default domain, which is not
    loaded.  A lookup of the loaded domain [default] through the sync.Map
    facade, with [default.po] on disk, parses that file four times and
    stores the result each time. *)
Lemma facade_lookup_of_loaded_domain_does_io :
  let da := disk_of ["/p/en_US/LC_MESSAGES/default.po"] in
  let ma := FacadeA.GetND da configA_default "default" "hi" "hi" 1 [] in
  let mb := FacadeB.GetND lookupB (disk_of []) configB_extras
              "extras" "hi" "hi" 1 [] in
  loadedB configB_extras "en_US" "extras" = true ∧
  stat_events (io_events mb) =
    probed (disk_of []) (spec_candidates "/p" "en_US" "default") ∧
  length (io_events mb) = 8%nat ∧
  parse_events (io_events ma) =
    [(Po, "/p/en_US/LC_MESSAGES/default.po");
     (Po, "/p/en_US/LC_MESSAGES/default.po");
     (Po, "/p/en_US/LC_MESSAGES/default.po");
     (Po, "/p/en_US/LC_MESSAGES/default.po")] ∧
  store_events (trace ma) = ["default"; "default"; "default"; "default"].
Proof. cbn zeta. repeat split; vm_compute; reflexivity. Qed.

Lemma forM_inv {A B : Type} (R : A → A → Prop) (Inv : A → Prop)
    (f : A → B → M A) (bs : list B) (a : A) :
  (∀ a, R a a) →
  (∀ a1 a2 a3, R a1 a2 → R a2 a3 → R a1 a3) →
  (∀ a b, Inv a → ∃ t a', f a b = (t, Ok a') ∧ R a a' ∧ Inv a') →
  Inv a →
  ∃ t a', forM bs a f = (t, Ok a') ∧ R a a' ∧ Inv a'.
Proof.
  intros Hrefl Htrans Hf. revert a.
  induction bs as [|b bs IH]; intros a Ha; cbn [forM].
  - exists [], a. by split_and!.
  - destruct (Hf a b Ha) as (t1 & a1 & -> & HR1 & Ha1).
    destruct (IH a1 Ha1) as (t2 & a2 & Hrun & HR2 & Ha2).
    rewrite bind_Ok, Hrun. unfold trace, result. cbn [fst snd].
    eexists _, a2. split_and!; eauto.
Qed.

Lemma forM_unchanged {A B : Type} (f : A → B → M A) (bs : list B) (a : A) :
  (∀ b, b ∈ bs → f a b = mret a) → forM bs a f = mret a.
Proof.
  induction bs as [|b bs IH]; intros Hf; cbn [forM]; [done |].
  rewrite (Hf b) by left. rewrite bind_mret. apply IH.
  intros b' Hb'. apply Hf. by right.
Qed.

Section FacadeLoad.
Context `{Runtime}.

Lemma catalogs_kept_refl (c : FacadeB.config) : catalogs_kept c c.
Proof. intros lang loc Hloc. eauto. Qed.

Lemma catalogs_kept_trans (c1 c2 c3 : FacadeB.config) :
  catalogs_kept c1 c2 → catalogs_kept c2 c3 → catalogs_kept c1 c3.
Proof.
  intros H12 H23 lang loc Hloc.
  destruct (H12 lang loc Hloc) as (loc2 & Hloc2 & Hd2).
  destruct (H23 lang loc2 Hloc2) as (loc3 & Hloc3 & Hd3).
  exists loc3. split; [done |]. intros dom v Hv. by apply Hd3, Hd2.
Qed.

Lemma ensureLocale_language (force : bool) (c : FacadeB.config) (key : string) :
  FacadeB.language (FacadeB.ensureLocale force c key) = FacadeB.language c.
Proof. unfold FacadeB.ensureLocale. by destruct (_ || _). Qed.

Lemma ensureLocale_kept (c : FacadeB.config) (key : string) :
  catalogs_kept c (FacadeB.ensureLocale false c key) ∧
  is_Some (FacadeB.storage (FacadeB.ensureLocale false c key) !! key).
Proof.
  unfold FacadeB.ensureLocale, FacadeB.set_storage. rewrite orb_false_r.
  case_bool_decide as Hk; cbn [FacadeB.storage].
  - split; [| by rewrite lookup_insert_eq].
    intros lang loc Hloc. exists loc. split; [| done].
    cbn [FacadeB.storage].
    rewrite lookup_insert_ne; [done |]. intros <-. congruence.
  - split; [apply catalogs_kept_refl |].
    by destruct (FacadeB.storage c !! key).
Qed.

Lemma ensureDomain_kept (d : disk) (key : string) (c : FacadeB.config)
    (dom : string) :
  is_Some (FacadeB.storage c !! key) →
  ∃ t c', FacadeB.ensureDomain d false key c dom = (t, Ok c') ∧
    (catalogs_kept c c' ∧ FacadeB.language c' = FacadeB.language c) ∧
    is_Some (FacadeB.storage c' !! key).
Proof.
  intros [loc Hloc]. unfold FacadeB.ensureDomain, FacadeB.set_storage.
  rewrite Hloc, orb_false_r.
  case_bool_decide as Hd.
  2:{ eexists _, c. split_and!; [done | apply catalogs_kept_refl | done | eauto]. }
  rewrite LocaleB_AddDomain_spec.
  destruct (first_existing d _) as [c0|]; rewrite bind_Ok;
    unfold trace, result; cbn [fst snd mret M_ret];
    eexists _, _;
    (split_and!;
       [done | | done | by cbn [FacadeB.storage]; rewrite lookup_insert_eq]).
  - intros lang loc1 Hloc1. cbn [FacadeB.storage].
    destruct (decide (key = lang)) as [<- | Hne].
    + rewrite lookup_insert_eq. eexists. split; [done |].
      intros dom' v Hv. assert (loc1 = loc) as -> by congruence.
      unfold LocaleB.Domains_lookup in *. cbn.
      destruct (LocaleB.Domains loc) as [m|]; cbn in *; [| done].
      rewrite lookup_insert_ne; [done |]. intros <-. congruence.
    + rewrite lookup_insert_ne by done. eauto.
  - intros lang loc1 Hloc1. cbn [FacadeB.storage].
    destruct (decide (key = lang)) as [<- | Hne].
    + rewrite lookup_insert_eq. eexists. split; [done |].
      intros dom' v Hv. congruence.
    + rewrite lookup_insert_ne by done. eauto.
Qed.

(** A load that is not forced returns, keeps every stored catalog, and
    leaves a Locale for the current language. *)
Lemma loadStorage_kept (d : disk) (c : FacadeB.config) :
  ∃ t c', FacadeB.loadStorage d c false = (t, Ok c') ∧ catalogs_kept c c' ∧
    is_Some (FacadeB.storage c' !! FacadeB.language c').
Proof.
  set (R := λ c c' : FacadeB.config,
         catalogs_kept c c' ∧ FacadeB.language c' = FacadeB.language c).
  assert (∀ a, R a a) as Rrefl.
  { intros a. split; [apply catalogs_kept_refl | done]. }
  assert (∀ a1 a2 a3, R a1 a2 → R a2 a3 → R a1 a3) as Rtrans.
  { intros a1 a2 a3 [HR1 HL1] [HR2 HL2]. split; [| congruence].
    by eapply catalogs_kept_trans. }
  unfold FacadeB.loadStorage, emit. rewrite bind_Ok.
  destruct (ensureLocale_kept c (FacadeB.language c)) as [Hk0 Hs0].
  pose proof (ensureLocale_language false c (FacadeB.language c)) as Hl0.
  set (c0 := FacadeB.ensureLocale false c (FacadeB.language c)) in *.
  destruct (ensureDomain_kept d (FacadeB.language c0) c0 (FacadeB.domain c0))
    as (t1 & c1 & Hrun1 & HR1 & _); [by rewrite Hl0 |].
  rewrite Hrun1, bind_Ok.
  destruct (forM_inv R (λ _, True)
    (λ c language,
       forM (FacadeB.loadDomains (FacadeB.ensureLocale false c language))
         (FacadeB.ensureLocale false c language)
         (FacadeB.ensureDomain d false language))
    (FacadeB.loadLanguages c1) c1 Rrefl Rtrans) as (t2 & c2 & Hrun2 & HR2 & _).
  - intros a lang _.
    destruct (ensureLocale_kept a lang) as [Hka Hsa].
    destruct (forM_inv R
      (λ c, is_Some (FacadeB.storage c !! lang))
      (FacadeB.ensureDomain d false lang)
      (FacadeB.loadDomains (FacadeB.ensureLocale false a lang))
      (FacadeB.ensureLocale false a lang) Rrefl Rtrans)
      as (t & a' & Hrun & HR & _).
    + intros a0 b Ha0. by apply ensureDomain_kept.
    + done.
    + exists t, a'. split_and!; [done | | done].
      eapply Rtrans; [| done]. split; [done |]. apply ensureLocale_language.
  - done.
  - rewrite Hrun2, bind_Ok. unfold trace, result. cbn [fst snd mret M_ret].
    assert (R c c2) as [HR HL].
    { eapply Rtrans; [| done]. eapply Rtrans; [| done]. by split. }
    eexists _, c2. split_and!; [done | done |].
    rewrite HL. destruct Hs0 as [loc0 Hloc0].
    assert (R c0 c2) as [HR0 _] by (by eapply Rtrans).
    destruct (HR0 _ _ Hloc0) as (loc2 & -> & _). eauto.
Qed.

Lemma loadedB_true (c : FacadeB.config) (lang dom : string) :
  loadedB c lang dom = true →
  FacadeB.ensureLocale false c lang = c ∧
  ∀ d, FacadeB.ensureDomain d false lang c dom = mret c.
Proof.
  unfold loadedB, FacadeB.ensureLocale, FacadeB.ensureDomain.
  destruct (FacadeB.storage c !! lang) as [loc|] eqn:Hloc; [| done].
  intros Hd%bool_decide_eq_true. rewrite !orb_false_r.
  rewrite bool_decide_eq_false_2 by done.
  split; [done |]. intros d. by rewrite bool_decide_eq_false_2.
Qed.

(** When everything the configuration names is loaded, a load that is
    not forced only takes and releases the lock. *)
Lemma loadStorage_loaded (d : disk) (c : FacadeB.config) :
  configured_loaded c = true →
  FacadeB.loadStorage d c false =
  ([EvLock MuConfig; EvUnlock MuConfig], Ok c).
Proof.
  unfold configured_loaded. intros [Hcur Hall]%andb_true_iff.
  apply loadedB_true in Hcur as [Hloc Hdom].
  unfold FacadeB.loadStorage, emit. rewrite bind_Ok, Hloc, Hdom, bind_mret.
  rewrite forM_unchanged; [done |].
  intros lang Hlang. cbn zeta.
  rewrite forallb_forall in Hall.
  specialize (Hall lang ltac:(by apply list_elem_of_In)).
  apply andb_true_iff in Hall as [Hsome%bool_decide_eq_true Hall].
  rewrite forallb_forall in Hall.
  assert (FacadeB.ensureLocale false c lang = c) as ->.
  { unfold FacadeB.ensureLocale. rewrite orb_false_r.
    by rewrite bool_decide_eq_false_2. }
  apply forM_unchanged. intros dom Hd.
  apply loadedB_true, Hall. by apply list_elem_of_In.
Qed.

End FacadeLoad.

(** The body that [GetND] and [GetNDC] share: the load that is not
    forced, then the Locale's lookup [K] under the read lock. *)
Lemma lookup_after_load `{Runtime} (d : disk) (c : FacadeB.config)
    (K : LocaleB.Locale → M string) :
  (∀ loc, ∃ t s, K loc = (t, Ok s) ∧ List.filter is_io t = []) →
  let m := (c ← FacadeB.loadStorage d c false;
            emit (EvRLock MuConfig);;
            tr ← match FacadeB.storage c !! FacadeB.language c with
                 | Some loc => K loc
                 | None => panic
                 end;
            emit (EvRUnlock MuConfig);;
            mret (c, tr)) in
  ∃ c' s, result m = Ok (c', s) ∧ catalogs_kept c c' ∧
    (configured_loaded c = true → c' = c ∧ io_events m = []).
Proof.
  intros Hlookup. cbn zeta.
  destruct (loadStorage_kept d c) as (t1 & c1 & Hload & Hkept & [loc Hloc]).
  rewrite Hload, bind_Ok. unfold emit. rewrite bind_Ok, Hloc.
  destruct (Hlookup loc) as (t2 & s & -> & Hio).
  rewrite !bind_Ok. unfold io_events, trace, result. cbn [fst snd mret M_ret].
  exists c1, s. split_and!; [done.. |].
  intros Hall. rewrite (loadStorage_loaded d c Hall) in Hload.
  injection Hload as <- <-. split; [done |].
  by rewrite !List.filter_app, Hio.
Qed.

(** C5, as the code has it, for the map-based facade.  A lookup ([GetND]
    or [GetNDC]) first runs a load that is not forced: it returns, and
    every catalog that was stored is still stored unchanged, since only
    domains that are absent are probed and loaded.  When everything the
    configuration names is loaded (the default domain for the current
    language, and a Locale with every domain of [loadDomains] for every
    language of [loadLanguages]), the lookup leaves the configuration as
    it was and does no file I/O.  The Locale's own lookup is taken to
    return and to do no file I/O. *)
Theorem facade_lookup_keeps_catalogs `{Runtime}
    (lookup : LocaleB.Locale → string → string → string → Z → list gval
              → M string)
    (lookupC : LocaleB.Locale → string → string → string → Z → string
               → list gval → M string)
    (d : disk) (c : FacadeB.config) (dom str plural ctx : string) (n : Z)
    (vars : list gval) :
  (∀ loc, ∃ t s, lookup loc dom str plural n vars = (t, Ok s) ∧
                 List.filter is_io t = []) →
  (∀ loc, ∃ t s, lookupC loc dom str plural n ctx vars = (t, Ok s) ∧
                 List.filter is_io t = []) →
  let m := FacadeB.GetND lookup d c dom str plural n vars in
  let mc := FacadeB.GetNDC lookupC d c dom str plural n ctx vars in
  (∃ c' s, result m = Ok (c', s) ∧ catalogs_kept c c' ∧
     (configured_loaded c = true → c' = c ∧ io_events m = [])) ∧
  (∃ c' s, result mc = Ok (c', s) ∧ catalogs_kept c c' ∧
     (configured_loaded c = true → c' = c ∧ io_events mc = [])).
Proof.
  intros Hl Hlc. cbn zeta. split.
  - exact (lookup_after_load d c (λ loc, lookup loc dom str plural n vars) Hl).
  - exact (lookup_after_load d c
             (λ loc, lookupC loc dom str plural n ctx vars) Hlc).
Qed.

Lemma facade_lookup_keeps_catalogs_witness :
  configured_loaded configB_loaded = true ∧
  io_events (FacadeB.GetND lookupB (disk_of []) configB_loaded
               "extras" "hi" "hi" 1 []) = [] ∧
  ∃ s, result (FacadeB.GetND lookupB (disk_of []) configB_loaded
                 "extras" "hi" "hi" 1 []) = Ok (configB_loaded, s).
Proof.
  assert (configured_loaded configB_loaded = true) as Hall
    by (vm_compute; reflexivity).
  destruct (facade_lookup_keeps_catalogs lookupB lookupBC (disk_of [])
              configB_loaded "extras" "hi" "hi" "" 1 [])
    as [(c' & s & Hr & _ & Hpure) _].
  - intros loc. unfold lookupB, LocaleB.DNGettext. cbn. eauto.
  - intros loc. unfold lookupBC, LocaleB.DNPGettext. cbn. eauto.
  - destruct (Hpure Hall) as [-> Hio]. split_and!; [done | done |]. by exists s.
Defined.

(** The sync.Map facade calls [loadStorage(true)] in every lookup, which
    adds the default domain and every domain of [loadDomains] again for
    the current language and for every language of [loadLanguages]. *)
Example FacadeA_lookup_reloads :
  let d := disk_of ["/p/en_US/LC_MESSAGES/default.po"] in
  trace (FacadeA.loadStorage d configA_default true) =
  [EvRLock MuConfig] ++
  concat (replicate 4
    [EvStat "/p/en_US/LC_MESSAGES/default.po";
     EvParse Po "/p/en_US/LC_MESSAGES/default.po";
     EvLock MuLocale; EvUnlock MuLocale; EvStore "default"]) ++
  [EvRUnlock MuConfig].
Proof. vm_compute. reflexivity. Qed.

(** * Further properties of the Locales and the facades *)

(** ** What [AddDomain] returns *)

(** X1. The map-based [AddDomain] returns for every Locale, disk and
    domain name: it never panics, whatever the length of the language
    tag and also on a Locale whose domain map is nil; the Locale it
    returns has the same path and language tag. *)
Theorem map_AddDomain_always_returns `{Runtime}
    (d : disk) (l : LocaleB.Locale) (dom : string) :
  ∃ l', result (LocaleB.AddDomain d l dom) = Ok l' ∧
    LocaleB.path l' = LocaleB.path l ∧
    LocaleB.lang l' = LocaleB.lang l.
Proof.
  rewrite LocaleB_AddDomain_spec.
  destruct (first_existing d _) as [c|]; eexists; unfold result; cbn [snd];
    by split_and!.
Qed.

(** X2. The sync.Map [AddDomain] panics exactly when the language tag is
    shorter than two characters and none of the four candidates built
    from the whole tag exists; in every other case it returns. *)
Theorem syncmap_AddDomain_panics_iff `{Runtime}
    (d : disk) (l : LocaleA.Locale) (dom : string) :
  result (LocaleA.AddDomain d l dom) = Panic ↔
  (String.length (LocaleA.lang l) < 2)%nat ∧
  first_existing d (candidatesA_tag l dom) = None.
Proof.
  rewrite LocaleA_AddDomain_spec.
  destruct (first_existing d (candidatesA_tag l dom)) as [c|].
  { unfold result; cbn [snd]. split; [done | by intros [_ ?]]. }
  destruct (String.length (LocaleA.lang l) <? 2)%nat eqn:Hlen.
  - apply Nat.ltb_lt in Hlen. by split.
  - apply Nat.ltb_ge in Hlen.
    destruct (first_existing d (candidatesA_prefix l dom)) as [c|];
      unfold result; cbn [snd]; (split; [done | intros [? _]; lia]).
Qed.

Section AddDomainMore.
Context `{Runtime}.

(** What the map-based [AddDomain] returns, by whether it parsed. *)
Lemma LocaleB_AddDomain_outcome (d : disk) (l : LocaleB.Locale) (dom : string) :
  (parse_events (trace (LocaleB.AddDomain d l dom)) = [] ∧
   LocaleB.AddDomain d l dom =
   (EvStat <$> probed d (guarded_candidates (LocaleB.path l) (LocaleB.lang l) dom),
    Ok l)) ∨
  (∃ c, parse_events (trace (LocaleB.AddDomain d l dom)) = [c] ∧
        result (LocaleB.AddDomain d l dom) = Ok (savedB l dom (parsed d c.1 c.2))).
Proof.
  rewrite LocaleB_AddDomain_spec.
  destruct (first_existing d _) as [[k f]|]; unfold trace, result; cbn [fst snd].
  - right. exists (k, f).
    by rewrite parse_events_app, parse_events_stats.
  - left. by rewrite parse_events_stats.
Qed.

(** What the sync.Map [AddDomain] returns when it returns. *)
Lemma LocaleA_AddDomain_outcome (d : disk) (l l' : LocaleA.Locale)
    (dom : string) :
  result (LocaleA.AddDomain d l dom) = Ok l' →
  (parse_events (trace (LocaleA.AddDomain d l dom)) = [] ∧
   store_events (trace (LocaleA.AddDomain d l dom)) = [] ∧ l' = l) ∨
  (∃ c, parse_events (trace (LocaleA.AddDomain d l dom)) = [c] ∧
        store_events (trace (LocaleA.AddDomain d l dom)) = [dom] ∧
        l' = savedA l dom (Some (parsed d c.1 c.2))).
Proof.
  rewrite LocaleA_AddDomain_spec.
  destruct (first_existing d (candidatesA_tag l dom)) as [[k f]|].
  { unfold trace, result; cbn [fst snd]. intros [= <-]. right. exists (k, f).
    by rewrite parse_events_app, store_events_app, parse_events_stats,
      store_events_stats. }
  destruct (String.length (LocaleA.lang l) <? 2)%nat; [done |].
  destruct (first_existing d (candidatesA_prefix l dom)) as [[k f]|];
    unfold trace, result; cbn [fst snd]; intros [= <-].
  - right. exists (k, f).
    by rewrite parse_events_app, store_events_app, parse_events_stats,
      store_events_stats.
  - left. by rewrite parse_events_stats, store_events_stats.
Qed.

End AddDomainMore.

(** X3. When the map-based [AddDomain] has parsed a file, the catalog of
    that file answers the lookups of the domain ([DNGettext] with the
    catalog's [GetN], [DNPGettext] with its [GetNC]), whatever was stored
    under the name before; and when the default domain was empty, it
    also answers [Gettext]. *)
Theorem map_AddDomain_then_lookup `{Runtime}
    (d : disk) (l l' : LocaleB.Locale) (dom : string) (k : kind) (f : string)
    (ctx str plural : string) (n : Z) :
  result (LocaleB.AddDomain d l dom) = Ok l' →
  parse_events (trace (LocaleB.AddDomain d l dom)) = [(k, f)] →
  result (LocaleB.DNGettext l' dom str plural n)
    = Ok (Translator.GetN (parsed d k f) str plural n []) ∧
  result (LocaleB.DNPGettext l' dom ctx str plural n)
    = Ok (Translator.GetNC (parsed d k f) str plural n ctx []) ∧
  (LocaleB.defaultDomain l = "" →
   result (LocaleB.Gettext l' str)
     = Ok (Translator.GetN (parsed d k f) str str 1 [])).
Proof.
  intros Hr Hp.
  destruct (LocaleB_AddDomain_outcome d l dom) as [[Hnil _] | (c & Hc & Hr')];
    [congruence |].
  rewrite Hc in Hp. injection Hp as ->. rewrite Hr' in Hr. injection Hr as <-.
  unfold LocaleB.Gettext, LocaleB.DGettext, LocaleB.DNGettext,
    LocaleB.DNPGettext, savedB, result.
  cbn. rewrite !lookup_insert_eq. split_and!; [done | done |].
  intros ->. rewrite decide_True by done. by rewrite lookup_insert_eq.
Qed.

Lemma map_AddDomain_then_lookup_witness :
  let d := disk_of ["/p/fr/LC_MESSAGES/app.mo"] in
  ∃ l', result (LocaleB.AddDomain d (localeB_fresh "/p" "fr_CA") "app") = Ok l' ∧
    result (LocaleB.DNGettext l' "app" "one" "many" 3)
      = Ok "/p/fr/LC_MESSAGES/app.mo" ∧
    result (LocaleB.Gettext l' "one") = Ok "/p/fr/LC_MESSAGES/app.mo".
Proof.
  cbn zeta.
  destruct (LocaleB_AddDomain_returns
              (disk_of ["/p/fr/LC_MESSAGES/app.mo"])
              (localeB_fresh "/p" "fr_CA") "app") as [l' Hr].
  exists l'. split; [exact Hr |].
  destruct (map_AddDomain_then_lookup
              (disk_of ["/p/fr/LC_MESSAGES/app.mo"])
              (localeB_fresh "/p" "fr_CA") l' "app" Mo "/p/fr/LC_MESSAGES/app.mo"
              "" "one" "many" 3 Hr ltac:(vm_compute; reflexivity))
    as (Hn & _ & Hg).
  split; [exact Hn |]. rewrite (Hg eq_refl). reflexivity.
Defined.

(** X4. When the sync.Map [AddDomain] has returned after parsing a file,
    the catalog of that file answers the lookups of the domain ([GetND]
    with the catalog's [GetN], [GetNDC] with its [GetNC], both with the
    caller's arguments), whatever was stored under the name before; and
    when the default domain was empty, it also answers [Get]. *)
Theorem syncmap_AddDomain_then_lookup `{Runtime}
    (d : disk) (l l' : LocaleA.Locale) (dom : string) (k : kind) (f : string)
    (ctx str plural : string) (n : Z) (vars : list gval) :
  result (LocaleA.AddDomain d l dom) = Ok l' →
  parse_events (trace (LocaleA.AddDomain d l dom)) = [(k, f)] →
  result (LocaleA.GetND l' dom str plural n vars)
    = Ok (Translator.GetN (parsed d k f) str plural n vars) ∧
  result (LocaleA.GetNDC l' dom str plural n ctx vars)
    = Ok (Translator.GetNC (parsed d k f) str plural n ctx vars) ∧
  (LocaleA.defaultDomain l = "" →
   result (LocaleA.Get l' str vars)
     = Ok (Translator.GetN (parsed d k f) str str 1 vars)).
Proof.
  intros Hr Hp.
  destruct (LocaleA_AddDomain_outcome d l l' dom Hr)
    as [(Hnil & _) | (c & Hc & _ & ->)]; [congruence |].
  rewrite Hc in Hp. injection Hp as ->.
  unfold LocaleA.Get, LocaleA.GetDomain, LocaleA.GetD, LocaleA.GetND,
    LocaleA.GetNDC, savedA, result.
  cbn. rewrite !lookup_insert_eq. split_and!; [done | done |].
  intros ->. rewrite decide_True by done. by rewrite lookup_insert_eq.
Qed.

Lemma syncmap_AddDomain_then_lookup_witness :
  let d := disk_of ["/p/fr/app.mo"] in
  let l' := savedA (localeA_fresh "/p" "fr")  "app"
              (Some (parsed d Mo "/p/fr/app.mo")) in
  result (LocaleA.AddDomain d (localeA_fresh "/p" "fr") "app") = Ok l' ∧
  result (LocaleA.GetND l' "app" "one" "many" 3 []) = Ok "/p/fr/app.mo" ∧
  result (LocaleA.Get l' "one" []) = Ok "/p/fr/app.mo".
Proof.
  cbn zeta.
  assert (result (LocaleA.AddDomain (disk_of ["/p/fr/app.mo"])
                    (localeA_fresh "/p" "fr") "app")
          = Ok (savedA (localeA_fresh "/p" "fr") "app"
                  (Some (parsed (disk_of ["/p/fr/app.mo"]) Mo "/p/fr/app.mo"))))
    as Hr by (vm_compute; reflexivity).
  split; [exact Hr |].
  destruct (syncmap_AddDomain_then_lookup _ _ _ "app" Mo "/p/fr/app.mo"
              "" "one" "many" 3 [] Hr ltac:(vm_compute; reflexivity))
    as (Hn & _ & Hg).
  split; [exact Hn |].
  destruct (syncmap_AddDomain_then_lookup _ _ _ "app" Mo "/p/fr/app.mo"
              "" "one" "one" 1 [] Hr ltac:(vm_compute; reflexivity))
    as (_ & _ & Hg1).
  exact (Hg1 eq_refl).
Defined.

(** X5. [AddDomain] touches one name only: when it returns, every other
    domain of the Locale has the entry it had before, in both Locales. *)
Theorem AddDomain_keeps_other_domains `{Runtime}
    (d : disk) (la la' : LocaleA.Locale) (lb lb' : LocaleB.Locale)
    (dom other : string) :
  other ≠ dom →
  (result (LocaleA.AddDomain d la dom) = Ok la' →
   LocaleA.Domains la' !! other = LocaleA.Domains la !! other) ∧
  (result (LocaleB.AddDomain d lb dom) = Ok lb' →
   LocaleB.Domains_lookup lb' other = LocaleB.Domains_lookup lb other).
Proof.
  intros Hne. split.
  - intros Hr.
    destruct (LocaleA_AddDomain_outcome d la la' dom Hr)
      as [(_ & _ & ->) | (c & _ & _ & ->)]; [done |].
    cbn. by rewrite lookup_insert_ne.
  - intros Hr.
    destruct (LocaleB_AddDomain_outcome d lb dom) as [[_ Hr'] | (c & _ & Hr')];
      rewrite Hr' in Hr; injection Hr as <-; [done |].
    unfold LocaleB.Domains_lookup, savedB. cbn.
    rewrite lookup_insert_ne by done.
    by destruct (LocaleB.Domains lb).
Qed.

Lemma AddDomain_keeps_other_domains_witness :
  let d := disk_of ["/p/es/app.po"] in
  ∃ la', result (LocaleA.AddDomain d locale_es "app") = Ok la' ∧
    LocaleA.Domains la' !! "app" = Some (Some (parsed d Po "/p/es/app.po")) ∧
    LocaleA.Domains la' !! "default" = Some (Some tr_hola).
Proof.
  cbn zeta. set (d := disk_of ["/p/es/app.po"]).
  set (la' := savedA locale_es "app" (Some (parsed d Po "/p/es/app.po"))).
  assert (result (LocaleA.AddDomain d locale_es "app") = Ok la') as Hr
    by (vm_compute; reflexivity).
  exists la'. split; [exact Hr |]. split; [reflexivity |].
  destruct (AddDomain_keeps_other_domains d locale_es la'
              (localeB_fresh "/p" "es") (localeB_fresh "/p" "es")
              "app" "default" ltac:(discriminate)) as [Ha _].
  exact (eq_trans (Ha Hr) eq_refl).
Defined.

(** X6. Adding a domain twice from the same disk gives what adding it
    once gives: the second call returns the Locale the first call
    returned (and panics when the first does), in both Locales. *)
Theorem AddDomain_twice `{Runtime}
    (d : disk) (la : LocaleA.Locale) (lb : LocaleB.Locale) (dom : string) :
  result (l ← LocaleA.AddDomain d la dom; LocaleA.AddDomain d l dom)
    = result (LocaleA.AddDomain d la dom) ∧
  result (l ← LocaleB.AddDomain d lb dom; LocaleB.AddDomain d l dom)
    = result (LocaleB.AddDomain d lb dom).
Proof.
  split.
  - rewrite result_bind.
    destruct (result (LocaleA.AddDomain d la dom)) as [l1|] eqn:Hr; [| done].
    destruct (LocaleA_AddDomain_outcome d la l1 dom Hr)
      as [(_ & _ & ->) | (c & _ & _ & ->)]; [done |].
    pose proof Hr as Hr1. rewrite LocaleA_AddDomain_spec in Hr.
    rewrite LocaleA_AddDomain_spec.
    change (candidatesA_tag (savedA la dom _) dom) with (candidatesA_tag la dom).
    change (candidatesA_prefix (savedA la dom _) dom)
      with (candidatesA_prefix la dom).
    change (LocaleA.lang (savedA la dom _)) with (LocaleA.lang la).
    assert (∀ tr tr', savedA (savedA la dom tr) dom tr' = savedA la dom tr')
      as Hidem.
    { intros tr tr'. unfold savedA. cbn. rewrite insert_insert_eq. f_equal.
      repeat case_decide; congruence. }
    destruct (first_existing d (candidatesA_tag la dom)) as [c1|].
    { unfold result in *. cbn [snd] in *. by rewrite Hidem. }
    destruct (String.length (LocaleA.lang la) <? 2)%nat; [done |].
    destruct (first_existing d (candidatesA_prefix la dom)) as [c2|];
      unfold result in *; cbn [snd] in *; [by rewrite Hidem | done].
  - rewrite result_bind, LocaleB_AddDomain_spec.
    destruct (first_existing d _) as [c|] eqn:Hf; unfold result; cbn [snd];
      rewrite LocaleB_AddDomain_spec.
    + change (LocaleB.path (savedB lb dom _)) with (LocaleB.path lb).
      change (LocaleB.lang (savedB lb dom _)) with (LocaleB.lang lb).
      rewrite Hf. cbn [snd]. f_equal. unfold savedB. cbn.
      rewrite insert_insert_eq. f_equal. repeat case_decide; congruence.
    + by rewrite Hf.
Qed.

(** ** Translators added by hand *)

(** X7. In the sync.Map Locale a nil Translator stored by
    [AddTranslator] makes every later lookup of that domain panic: the
    type assertion [v.(Translator)] fails on the nil interface value. *)
Theorem nil_translator_lookup_panics `{Runtime}
    (l : LocaleA.Locale) (dom str plural ctx : string) (n : Z)
    (vars : list gval) :
  result (l' ← LocaleA.AddTranslator l dom None;
          LocaleA.GetND l' dom str plural n vars) = Panic ∧
  result (l' ← LocaleA.AddTranslator l dom None;
          LocaleA.GetNDC l' dom str plural n ctx vars) = Panic ∧
  result (l' ← LocaleA.AddTranslator l dom None;
          LocaleA.GetD l' dom str vars) = Panic ∧
  result (l' ← LocaleA.AddTranslator l dom None;
          LocaleA.GetDC l' dom str ctx vars) = Panic.
Proof.
  unfold LocaleA.AddTranslator, LocaleA.GetD, LocaleA.GetDC, LocaleA.GetND,
    LocaleA.GetNDC, result.
  cbn. by rewrite !lookup_insert_eq.
Qed.

(** X8. [Get], [GetN], [GetC] and [GetNC] of the sync.Map Locale consult
    the default domain: on a Locale whose default domain is empty, the
    Translator added first answers them, the singular lookups through
    its [GetN] and [GetNC] with the string as both forms and the count
    1; and after [SetDomain(dom)] they are answered by the Translator
    stored under [dom]. *)
Theorem default_domain_answers_Get `{Runtime}
    (l : LocaleA.Locale) (dom : string) (t : Translator.t)
    (str plural ctx : string) (n : Z) (vars : list gval) :
  (LocaleA.defaultDomain l = "" →
   result (l' ← LocaleA.AddTranslator l dom (Some t); LocaleA.Get l' str vars)
     = Ok (Translator.GetN t str str 1 vars) ∧
   result (l' ← LocaleA.AddTranslator l dom (Some t);
           LocaleA.GetN l' str plural n vars)
     = Ok (Translator.GetN t str plural n vars) ∧
   result (l' ← LocaleA.AddTranslator l dom (Some t);
           LocaleA.GetC l' str ctx vars)
     = Ok (Translator.GetNC t str str 1 ctx vars) ∧
   result (l' ← LocaleA.AddTranslator l dom (Some t);
           LocaleA.GetNC l' str plural n ctx vars)
     = Ok (Translator.GetNC t str plural n ctx vars)) ∧
  (LocaleA.Domains l !! dom = Some (Some t) →
   result (l' ← LocaleA.SetDomain l dom; LocaleA.Get l' str vars)
     = Ok (Translator.GetN t str str 1 vars) ∧
   result (l' ← LocaleA.SetDomain l dom; LocaleA.GetNC l' str plural n ctx vars)
     = Ok (Translator.GetNC t str plural n ctx vars)).
Proof.
  unfold LocaleA.AddTranslator, LocaleA.SetDomain, LocaleA.Get, LocaleA.GetN,
    LocaleA.GetC, LocaleA.GetNC, LocaleA.GetD, LocaleA.GetDC, LocaleA.GetDomain,
    LocaleA.GetND, LocaleA.GetNDC, result.
  split.
  - intros ->. cbn. by rewrite !lookup_insert_eq.
  - intros Hd. cbn. by rewrite !Hd.
Qed.

Lemma default_domain_answers_Get_witness :
  result (l' ← LocaleA.AddTranslator (localeA_fresh "/p" "es") "app"
                  (Some tr_hola);
          LocaleA.Get l' "Hello" []) = Ok "Hola" ∧
  result (l' ← LocaleA.SetDomain locale_es "default";
          LocaleA.Get l' "Hello" []) = Ok "Hola".
Proof.
  destruct (default_domain_answers_Get (localeA_fresh "/p" "es") "app" tr_hola
              "Hello" "Hellos" "" 2 []) as [Hadd _].
  destruct (default_domain_answers_Get locale_es "default" tr_hola
              "Hello" "Hellos" "" 2 []) as [_ Hset].
  split.
  - exact (proj1 (Hadd eq_refl)).
  - exact (proj1 (Hset eq_refl)).
Defined.

(** ** Lock discipline *)

Lemma lock_run_app (m : mutex) (st : lock_state) (a b : list event) :
  lock_run m st (a ++ b) = st' ← lock_run m st a; lock_run m st' b.
Proof.
  revert st. induction a as [|e a IH]; intros st; [done |].
  cbn [app lock_run].
  destruct e, st; try apply IH; case_decide; try apply IH; done.
Qed.

Lemma lock_run_stats (m : mutex) (st : lock_state) (fs : list string) :
  lock_run m st (EvStat <$> fs) = Some st.
Proof. induction fs as [|f fs IH]; [done |]. cbn. by destruct st. Qed.

(** A trace that holds no lock event of the mutex [m]. *)
Lemma lock_run_other (m : mutex) (st : lock_state) (t : list event) :
  Forall (λ e, match e with
               | EvLock m' | EvUnlock m' | EvRLock m' | EvRUnlock m' => m' ≠ m
               | _ => True
               end) t →
  lock_run m st t = Some st.
Proof.
  induction 1 as [|e t He _ IH]; [done |].
  cbn [lock_run]. destruct e, st; try done; by rewrite decide_False.
Qed.

Section Locks.
Context `{Runtime}.

Lemma LocaleA_AddDomain_locks (m : mutex) (d : disk) (l : LocaleA.Locale)
    (dom : string) :
  lock_run m Free (trace (LocaleA.AddDomain d l dom)) = Some Free.
Proof.
  rewrite LocaleA_AddDomain_spec.
  destruct (first_existing d (candidatesA_tag l dom)) as [c|].
  { unfold trace; cbn [fst]. rewrite lock_run_app, lock_run_stats.
    destruct m; reflexivity. }
  destruct (String.length (LocaleA.lang l) <? 2)%nat.
  { unfold trace; cbn [fst]. apply lock_run_stats. }
  destruct (first_existing d (candidatesA_prefix l dom)) as [c|];
    unfold trace; cbn [fst];
    rewrite ?lock_run_app, lock_run_stats; [destruct m |]; reflexivity.
Qed.

Lemma LocaleB_AddDomain_locks (m : mutex) (d : disk) (l : LocaleB.Locale)
    (dom : string) :
  lock_run m Free (trace (LocaleB.AddDomain d l dom)) = Some Free.
Proof.
  rewrite LocaleB_AddDomain_spec.
  destruct (first_existing d _) as [c|]; unfold trace; cbn [fst];
    rewrite ?lock_run_app, lock_run_stats; [destruct m |]; reflexivity.
Qed.

(** A loop whose every step leaves the mutex free leaves it free. *)
Lemma forM_locks {A B : Type} (m : mutex) (f : A → B → M A) (bs : list B)
    (a : A) :
  (∀ a b, lock_run m Free (trace (f a b)) = Some Free) →
  lock_run m Free (trace (forM bs a f)) = Some Free.
Proof.
  intros Hf. revert a. induction bs as [|b bs IH]; intros a; [done |].
  cbn [forM]. rewrite trace_bind, lock_run_app, Hf. cbn.
  destruct (result (f a b)); [apply IH | done].
Qed.

End Locks.

(** X9. The calls on a Locale respect its lock: over the trace of any
    sequence of [AddDomain] and [AddTranslator] calls, also one that
    ends in a panic, over the trace of [GetN], [GetNC], [DNGettext] and
    [DNPGettext], and over the trace of [SetDomain] followed by
    [GetDomain], the Locale's mutex is locked only when free, unlocked
    only when held, and is free at the end. *)
Theorem Locale_calls_release_the_lock `{Runtime}
    (la : LocaleA.Locale) (opsA : list opA)
    (lb : LocaleB.Locale) (opsB : list (disk * string))
    (dom str plural ctx : string) (n : Z) (vars : list gval) :
  lock_run MuLocale Free (trace (runA la opsA)) = Some Free ∧
  lock_run MuLocale Free (trace (runB lb opsB)) = Some Free ∧
  lock_run MuLocale Free (trace (LocaleA.GetN la str plural n vars))
    = Some Free ∧
  lock_run MuLocale Free (trace (LocaleA.GetNC la str plural n ctx vars))
    = Some Free ∧
  lock_run MuLocale Free (trace (LocaleB.DNGettext lb dom str plural n))
    = Some Free ∧
  lock_run MuLocale Free (trace (LocaleB.DNPGettext lb dom ctx str plural n))
    = Some Free ∧
  lock_run MuLocale Free
    (trace (l ← LocaleA.SetDomain la dom; LocaleA.GetDomain l)) = Some Free ∧
  lock_run MuLocale Free
    (trace (l ← LocaleB.SetDomain lb dom; LocaleB.GetDomain l)) = Some Free.
Proof.
  split_and!.
  - apply forM_locks. intros a [d0 dom0 | dom0 tr]; cbn [stepA].
    + apply LocaleA_AddDomain_locks.
    + reflexivity.
  - apply forM_locks. intros a [d0 dom0]. apply LocaleB_AddDomain_locks.
  - unfold LocaleA.GetN, LocaleA.GetDomain, LocaleA.GetND. cbn.
    destruct (LocaleA.Domains la !! _) as [[t|]|]; reflexivity.
  - unfold LocaleA.GetNC, LocaleA.GetDomain, LocaleA.GetNDC. cbn.
    destruct (LocaleA.Domains la !! _) as [[t|]|]; reflexivity.
  - reflexivity.
  - reflexivity.
  - reflexivity.
  - reflexivity.
Qed.

(** The run of a mutex is not vacuous: it refuses a second lock and
    records a lock that is not released. *)
Example lock_run_refuses :
  lock_run MuLocale Free [EvLock MuLocale; EvRLock MuLocale] = None ∧
  lock_run MuLocale Free [EvLock MuLocale; EvStore "x"] = Some WriteHeld ∧
  lock_run MuLocale Free [EvLock MuConfig; EvLock MuLocale; EvUnlock MuLocale]
    = Some Free.
Proof. repeat split. Qed.

(** ** Loading through the map-based facade *)

(** A loop whose every step returns, holds no event of the mutex [m],
    keeps [Inv], establishes [Q] for its element and keeps [Q] where it
    held. *)
Lemma forM_establish {A B : Type} (m : mutex) (Inv : A → Prop)
    (Q : A → B → Prop) (f : A → B → M A) (bs : list B) (a : A) :
  (∀ a b, Inv a →
     ∃ t a', f a b = (t, Ok a') ∧ (∀ st, lock_run m st t = Some st) ∧
       Inv a' ∧ Q a' b ∧ ∀ x, Q a x → Q a' x) →
  Inv a →
  ∃ t a', forM bs a f = (t, Ok a') ∧ (∀ st, lock_run m st t = Some st) ∧
    Inv a' ∧ ∀ x, x ∈ bs ∨ Q a x → Q a' x.
Proof.
  intros Hf. revert a. induction bs as [|b bs IH]; intros a Ha; cbn [forM].
  - exists [], a. split_and!; [done.. |]. intros x [Hx | Hx]; [| done].
    by apply elem_of_nil in Hx.
  - destruct (Hf a b Ha) as (t1 & a1 & -> & Hl1 & Ha1 & Hb & Hkeep).
    destruct (IH a1 Ha1) as (t2 & a2 & Hrun & Hl2 & Ha2 & HQ).
    rewrite bind_Ok, Hrun. unfold trace, result. cbn [fst snd].
    eexists _, a2. split_and!; [done | | done |].
    + intros st. by rewrite lock_run_app, Hl1; cbn.
    + intros x [Hx | Hx]; apply HQ.
      * apply elem_of_cons in Hx as [-> | Hx]; [by right | by left].
      * right. by apply Hkeep.
Qed.

Section FacadeForced.
Context `{Runtime}.

Lemma LocaleB_AddDomain_no_config_lock (d : disk) (l : LocaleB.Locale)
    (dom : string) (st : lock_state) :
  lock_run MuConfig st (trace (LocaleB.AddDomain d l dom)) = Some st.
Proof.
  rewrite LocaleB_AddDomain_spec.
  destruct (first_existing d _) as [c|]; unfold trace; cbn [fst];
    rewrite ?lock_run_app, lock_run_stats; [| done]. by destruct st.
Qed.

Lemma ensureDomain_placed (d : disk) (force : bool) (key : string)
    (c : FacadeB.config) (dom : string) :
  is_Some (FacadeB.storage c !! key) →
  ∃ t c', FacadeB.ensureDomain d force key c dom = (t, Ok c') ∧
    (∀ st, lock_run MuConfig st t = Some st) ∧
    is_Some (FacadeB.storage c' !! key) ∧
    FacadeB.library c' = FacadeB.library c ∧
    FacadeB.language c' = FacadeB.language c ∧
    FacadeB.domain c' = FacadeB.domain c ∧
    FacadeB.loadDomains c' = FacadeB.loadDomains c ∧
    FacadeB.loadLanguages c' = FacadeB.loadLanguages c ∧
    ∀ L T x, placedB L T c x → placedB L T c' x.
Proof.
  intros [loc Hloc]. unfold FacadeB.ensureDomain. rewrite Hloc.
  destruct (_ || force).
  2:{ exists [], c. split_and!; eauto. }
  pose proof (LocaleB_AddDomain_no_config_lock d loc dom) as Hlock.
  destruct (LocaleB.AddDomain d loc dom) as [t r] eqn:Hadd.
  assert (∃ loc', r = Ok loc' ∧ LocaleB.path loc' = LocaleB.path loc ∧
                  LocaleB.lang loc' = LocaleB.lang loc) as (loc' & -> & Hp & Hl).
  { pose proof (LocaleB_AddDomain_spec d loc dom) as Hspec. cbn zeta in Hspec.
    rewrite Hadd in Hspec.
    destruct (first_existing d _); injection Hspec as _ ->; eauto. }
  unfold trace in Hlock. cbn [fst] in Hlock.
  rewrite bind_Ok. unfold trace, result, FacadeB.set_storage.
  cbn [fst snd mret M_ret FacadeB.storage FacadeB.library FacadeB.language
       FacadeB.domain FacadeB.loadDomains FacadeB.loadLanguages].
  eexists _, _. split_and!; try done.
  - intros st. rewrite app_nil_r. apply Hlock.
  - cbn [FacadeB.storage]. by rewrite lookup_insert_eq.
  - intros L T x (loc0 & Hx & Hp0 & Hl0). unfold placedB. cbn [FacadeB.storage].
    destruct (decide (key = x)) as [<- | Hne].
    + rewrite lookup_insert_eq. exists loc'. split; [done |].
      assert (loc0 = loc) as -> by congruence. by rewrite Hp, Hl.
    + rewrite lookup_insert_ne by done. eauto.
Qed.

End FacadeForced.

Lemma forM_inv_lock {A B : Type} (m : mutex) (R : A → A → Prop)
    (Inv : A → Prop) (f : A → B → M A) (bs : list B) (a : A) :
  (∀ a, R a a) →
  (∀ a1 a2 a3, R a1 a2 → R a2 a3 → R a1 a3) →
  (∀ a b, Inv a →
     ∃ t a', f a b = (t, Ok a') ∧ (∀ st, lock_run m st t = Some st) ∧
       R a a' ∧ Inv a') →
  Inv a →
  ∃ t a', forM bs a f = (t, Ok a') ∧ (∀ st, lock_run m st t = Some st) ∧
    R a a' ∧ Inv a'.
Proof.
  intros Hrefl Htrans Hf. revert a.
  induction bs as [|b bs IH]; intros a Ha; cbn [forM].
  - exists [], a. by split_and!.
  - destruct (Hf a b Ha) as (t1 & a1 & -> & Hl1 & HR1 & Ha1).
    destruct (IH a1 Ha1) as (t2 & a2 & Hrun & Hl2 & HR2 & Ha2).
    rewrite bind_Ok, Hrun. unfold trace, result. cbn [fst snd].
    eexists _, a2. split_and!; eauto.
    intros st. by rewrite lock_run_app, Hl1; cbn.
Qed.

Section FacadeForcedLoad.
Context `{Runtime}.

Lemma settledB_refl (c : FacadeB.config) : settledB c c.
Proof. by split_and!. Qed.

Lemma settledB_trans (c1 c2 c3 : FacadeB.config) :
  settledB c1 c2 → settledB c2 c3 → settledB c1 c3.
Proof.
  intros (? & ? & ? & ? & ? & H12) (? & ? & ? & ? & ? & H23).
  split_and!; try congruence. intros L T x Hx. by apply H23, H12.
Qed.

Lemma ensureLocale_settled (force : bool) (c : FacadeB.config) (key : string) :
  let c' := FacadeB.ensureLocale force c key in
  is_Some (FacadeB.storage c' !! key) ∧
  FacadeB.library c' = FacadeB.library c ∧
  FacadeB.language c' = FacadeB.language c ∧
  FacadeB.domain c' = FacadeB.domain c ∧
  FacadeB.loadDomains c' = FacadeB.loadDomains c ∧
  FacadeB.loadLanguages c' = FacadeB.loadLanguages c ∧
  (∀ L T x, x ≠ key → placedB L T c x → placedB L T c' x) ∧
  (force = true →
   placedB (FacadeB.library c) (SimplifiedLocale (FacadeB.language c)) c' key).
Proof.
  cbn zeta. unfold FacadeB.ensureLocale, FacadeB.set_storage, placedB.
  destruct (bool_decide _ || force) eqn:Hcond;
    cbn [FacadeB.storage FacadeB.library FacadeB.language FacadeB.domain
         FacadeB.loadDomains FacadeB.loadLanguages].
  - rewrite lookup_insert_eq. split_and!; try done.
    + intros L T x Hne (loc & Hloc & ?). exists loc.
      by rewrite lookup_insert_ne.
    + intros _. eexists. split; [reflexivity |]. by split.
  - apply orb_false_iff in Hcond as [Hk%bool_decide_eq_false ->].
    split_and!; try done. by destruct (FacadeB.storage c !! key).
Qed.

Lemma placedB_is_Some (L T : string) (c : FacadeB.config) (x : string) :
  placedB L T c x → is_Some (FacadeB.storage c !! x).
Proof. intros (loc & -> & _). by eexists. Qed.

Lemma is_Some_kept (c c' : FacadeB.config) (x : string) :
  (∀ L T, placedB L T c x → placedB L T c' x) →
  is_Some (FacadeB.storage c !! x) → is_Some (FacadeB.storage c' !! x).
Proof.
  intros Hkeep [loc Hloc].
  apply (placedB_is_Some (LocaleB.path loc) (LocaleB.lang loc)), Hkeep.
  by exists loc.
Qed.

(** What every [loadStorage] of the map-based facade does: it returns
    with the settings unchanged, takes and releases the lock of the
    configuration once and leaves a Locale under the key of the current
    language and under every key of [loadLanguages]; when forced, each
    of these has the path [c.library] and the tag of [c.language]. *)
Lemma FacadeB_loadStorage_spec (d : disk) (c : FacadeB.config) (force : bool) :
  ∃ t c', FacadeB.loadStorage d c force = (t, Ok c') ∧
    lock_run MuConfig Free t = Some Free ∧
    FacadeB.library c' = FacadeB.library c ∧
    FacadeB.language c' = FacadeB.language c ∧
    FacadeB.domain c' = FacadeB.domain c ∧
    FacadeB.loadDomains c' = FacadeB.loadDomains c ∧
    FacadeB.loadLanguages c' = FacadeB.loadLanguages c ∧
    ∀ key, key ∈ FacadeB.language c :: FacadeB.loadLanguages c →
      is_Some (FacadeB.storage c' !! key) ∧
      (force = true →
       placedB (FacadeB.library c) (SimplifiedLocale (FacadeB.language c))
         c' key).
Proof.
  set (L := FacadeB.library c). set (T := SimplifiedLocale (FacadeB.language c)).
  unfold FacadeB.loadStorage, emit. rewrite bind_Ok.
  destruct (ensureLocale_settled force c (FacadeB.language c))
    as (Hs0 & Hlib0 & Hlang0 & Hdom0 & Hld0 & Hll0 & _ & Hq0).
  set (c0 := FacadeB.ensureLocale force c (FacadeB.language c)) in *.
  destruct (ensureDomain_placed d force (FacadeB.language c0) c0
              (FacadeB.domain c0))
    as (t1 & c1 & Hrun1 & Hlock1 & Hs1 & Hlib1 & Hlang1 & Hdom1 & Hld1 & Hll1 & Hq1);
    [by rewrite Hlang0 |].
  rewrite Hrun1, bind_Ok.
  destruct (forM_establish MuConfig
    (λ a, FacadeB.library a = L ∧ FacadeB.language a = FacadeB.language c ∧
          FacadeB.domain a = FacadeB.domain c ∧
          FacadeB.loadDomains a = FacadeB.loadDomains c ∧
          FacadeB.loadLanguages a = FacadeB.loadLanguages c)
    (λ a key, is_Some (FacadeB.storage a !! key) ∧
              (force = true → placedB L T a key))
    (λ c language,
       forM (FacadeB.loadDomains (FacadeB.ensureLocale force c language))
         (FacadeB.ensureLocale force c language)
         (FacadeB.ensureDomain d force language))
    (FacadeB.loadLanguages c1) c1)
    as (t2 & c2 & Hrun2 & Hlock2 & (Hlib2 & Hlang2 & Hdom2 & Hld2 & Hll2) & Hq2).
  - intros a key (Ha1 & Ha2 & Ha3 & Ha4 & Ha5).
    destruct (ensureLocale_settled force a key)
      as (Hsa & Hliba & Hlanga & Hdoma & Hlda & Hlla & Hkeepa & Hqa).
    destruct (forM_inv_lock MuConfig settledB
      (λ c, is_Some (FacadeB.storage c !! key))
      (FacadeB.ensureDomain d force key)
      (FacadeB.loadDomains (FacadeB.ensureLocale force a key))
      (FacadeB.ensureLocale force a key) settledB_refl settledB_trans)
      as (t & a' & Hrun & Hlock & (Hb1 & Hb2 & Hb3 & Hb4 & Hb5 & Hkeep) & Hsa').
    + intros a0 b Ha0.
      destruct (ensureDomain_placed d force key a0 b Ha0)
        as (t0 & a1 & Hr0 & Hl0 & Hs & ? & ? & ? & ? & ? & ?).
      exists t0, a1. by split_and!.
    + done.
    + exists t, a'. subst L T. rewrite <- Ha1, <- Ha2.
      split; [exact Hrun |]. split; [exact Hlock |].
      split; [split_and!; congruence |]. split; [split |].
      * exact Hsa'.
      * intros Hforce. apply Hkeep. by apply Hqa.
      * intros x [Hx1 Hx2].
        destruct (decide (x = key)) as [-> | Hne].
        -- split; [exact Hsa' |]. intros Hforce. apply Hkeep. by apply Hqa.
        -- split.
           ++ apply (is_Some_kept a); [| done]. intros L T HLT.
              by apply Hkeep, Hkeepa.
           ++ intros Hforce. apply Hkeep, Hkeepa; [done |]. by apply Hx2.
  - subst L. split_and!; congruence.
  - rewrite Hrun2, bind_Ok. unfold trace, result. cbn [fst snd mret M_ret].
    eexists _, c2. split_and!; try congruence; [done | |].
    + cbn. rewrite !lock_run_app. cbn. rewrite Hlock1. cbn.
      rewrite lock_run_app, Hlock2. reflexivity.
    + intros key Hkey. apply Hq2.
      apply elem_of_cons in Hkey as [-> | Hkey].
      * right. split.
        -- by rewrite <- Hlang0.
        -- intros Hforce. apply Hq1. by apply Hq0.
      * left. by rewrite Hll1, Hll0.
Qed.

End FacadeForcedLoad.

(** X10. [Configure] of the map-based facade always returns, with the
    three settings set and the lists of domains and languages as they
    were; over its trace the lock of the configuration is taken only
    while it is free and is free at the end.  After its forced load the
    key of the current language and every key of [loadLanguages] holds a
    Locale with the new library path and the tag of the new current
    language, also a key of another language. *)
Theorem map_facade_Configure_reloads `{Runtime}
    (d : disk) (c : FacadeB.config) (lib lang dom : string) :
  ∃ c', result (FacadeB.Configure d c lib lang dom) = Ok c' ∧
    lock_run MuConfig Free (trace (FacadeB.Configure d c lib lang dom))
      = Some Free ∧
    FacadeB.library c' = lib ∧ FacadeB.language c' = lang ∧
    FacadeB.domain c' = dom ∧
    FacadeB.loadDomains c' = FacadeB.loadDomains c ∧
    FacadeB.loadLanguages c' = FacadeB.loadLanguages c ∧
    ∀ key, key ∈ lang :: FacadeB.loadLanguages c →
      ∃ loc, FacadeB.storage c' !! key = Some loc ∧
        LocaleB.path loc = lib ∧ LocaleB.lang loc = SimplifiedLocale lang.
Proof.
  unfold FacadeB.Configure, emit. cbn zeta.
  destruct (FacadeB_loadStorage_spec d
    (FacadeB.set_domain
       (FacadeB.set_language (FacadeB.set_library c lib) lang) dom) true)
    as (t & c' & Hrun & Hlock & Hlib & Hlang & Hdom & Hld & Hll & Hplaced).
  rewrite !bind_Ok, Hrun. unfold trace, result. cbn [fst snd].
  exists c'. split_and!; try done.
  intros key Hkey. by apply (Hplaced key).
Qed.

(** X11. The three setters of the map-based facade always return with
    their setting changed and the other two kept.  Each forces a
    load, so [SetLanguage] leaves under every key of [loadLanguages] a
    Locale of the new language, and [SetLibrary] one with the new
    path. *)
Theorem map_facade_setters_reload `{Runtime}
    (d : disk) (c : FacadeB.config) (s : string) :
  (∃ c', result (FacadeB.SetLanguage d c s) = Ok c' ∧
     FacadeB.language c' = s ∧ FacadeB.library c' = FacadeB.library c ∧
     FacadeB.domain c' = FacadeB.domain c ∧
     ∀ key, key ∈ s :: FacadeB.loadLanguages c →
       ∃ loc, FacadeB.storage c' !! key = Some loc ∧
         LocaleB.path loc = FacadeB.library c ∧
         LocaleB.lang loc = SimplifiedLocale s) ∧
  (∃ c', result (FacadeB.SetLibrary d c s) = Ok c' ∧
     FacadeB.library c' = s ∧ FacadeB.language c' = FacadeB.language c ∧
     FacadeB.domain c' = FacadeB.domain c ∧
     ∀ key, key ∈ FacadeB.language c :: FacadeB.loadLanguages c →
       ∃ loc, FacadeB.storage c' !! key = Some loc ∧
         LocaleB.path loc = s ∧
         LocaleB.lang loc = SimplifiedLocale (FacadeB.language c)) ∧
  (∃ c', result (FacadeB.SetDomain d c s) = Ok c' ∧
     FacadeB.domain c' = s ∧ FacadeB.language c' = FacadeB.language c ∧
     FacadeB.library c' = FacadeB.library c ∧
     ∀ key, key ∈ FacadeB.language c :: FacadeB.loadLanguages c →
       ∃ loc, FacadeB.storage c' !! key = Some loc ∧
         LocaleB.path loc = FacadeB.library c ∧
         LocaleB.lang loc = SimplifiedLocale (FacadeB.language c)).
Proof.
  split_and!.
  - unfold FacadeB.SetLanguage, emit. cbn zeta.
    destruct (FacadeB_loadStorage_spec d (FacadeB.set_language c s) true)
      as (t & c' & Hrun & _ & Hlib & Hlang & Hdom & _ & _ & Hplaced).
    rewrite !bind_Ok, Hrun. exists c'. split_and!; try done.
    intros key Hkey. by apply (Hplaced key).
  - unfold FacadeB.SetLibrary, emit. cbn zeta.
    destruct (FacadeB_loadStorage_spec d (FacadeB.set_library c s) true)
      as (t & c' & Hrun & _ & Hlib & Hlang & Hdom & _ & _ & Hplaced).
    rewrite !bind_Ok, Hrun. exists c'. split_and!; try done.
    intros key Hkey. by apply (Hplaced key).
  - unfold FacadeB.SetDomain, emit. cbn zeta.
    destruct (FacadeB_loadStorage_spec d (FacadeB.set_domain c s) true)
      as (t & c' & Hrun & _ & Hlib & Hlang & Hdom & _ & _ & Hplaced).
    rewrite !bind_Ok, Hrun. exists c'. split_and!; try done.
    intros key Hkey. by apply (Hplaced key).
Qed.

(** X12. [loadStorage] and [loadDomain] of the map-based facade, forced
    or not, always return, and the storage then holds a Locale for the
    current language.  They leave library, language and domain as they
    were, and over their trace the lock of the configuration is taken
    only while it is free and is free at the end. *)
Theorem map_facade_load_returns `{Runtime}
    (d : disk) (c : FacadeB.config) (dom : string) (force : bool) :
  (∃ c', result (FacadeB.loadStorage d c force) = Ok c' ∧
     lock_run MuConfig Free (trace (FacadeB.loadStorage d c force))
       = Some Free ∧
     FacadeB.library c' = FacadeB.library c ∧
     FacadeB.language c' = FacadeB.language c ∧
     FacadeB.domain c' = FacadeB.domain c ∧
     is_Some (FacadeB.storage c' !! FacadeB.language c)) ∧
  (∃ c', result (FacadeB.loadDomain d c dom force) = Ok c' ∧
     lock_run MuConfig Free (trace (FacadeB.loadDomain d c dom force))
       = Some Free ∧
     FacadeB.library c' = FacadeB.library c ∧
     FacadeB.language c' = FacadeB.language c ∧
     FacadeB.domain c' = FacadeB.domain c ∧
     is_Some (FacadeB.storage c' !! FacadeB.language c)).
Proof.
  split.
  - destruct (FacadeB_loadStorage_spec d c force)
      as (t & c' & Hrun & Hlock & Hlib & Hlang & Hdom & _ & _ & Hplaced).
    rewrite Hrun. exists c'. split_and!; try done.
    apply (Hplaced (FacadeB.language c)). by left.
  - unfold FacadeB.loadDomain, emit. rewrite bind_Ok.
    destruct (ensureLocale_settled force c (FacadeB.language c))
      as (Hs0 & Hlib0 & Hlang0 & Hdom0 & _).
    set (c0 := FacadeB.ensureLocale force c (FacadeB.language c)) in *.
    destruct (ensureDomain_placed d force (FacadeB.language c0) c0
                (FacadeB.domain c0))
      as (t1 & c1 & Hrun1 & Hlock1 & Hs1 & Hlib1 & Hlang1 & Hdom1 & _);
      [by rewrite Hlang0 |].
    rewrite Hrun1, bind_Ok.
    destruct (ensureDomain_placed d force (FacadeB.language c1) c1 dom)
      as (t2 & c2 & Hrun2 & Hlock2 & Hs2 & Hlib2 & Hlang2 & Hdom2 & _);
      [by rewrite Hlang1 |].
    rewrite Hrun2, bind_Ok. unfold trace, result. cbn [fst snd mret M_ret].
    exists c2. split_and!; try congruence.
    + reflexivity.
    + cbn. rewrite !lock_run_app. cbn. rewrite Hlock1. cbn.
      rewrite lock_run_app, Hlock2. reflexivity.
Qed.

(** ** Loading through the sync.Map facade *)

Lemma forM_no_lock {A B : Type} (m : mutex) (f : A → B → M A) (bs : list B)
    (a : A) :
  (∀ a b st, lock_run m st (trace (f a b)) = Some st) →
  ∀ st, lock_run m st (trace (forM bs a f)) = Some st.
Proof.
  intros Hf. revert a. induction bs as [|b bs IH]; intros a st; [done |].
  cbn [forM]. rewrite trace_bind, lock_run_app, Hf. cbn.
  destruct (result (f a b)); [apply IH | done].
Qed.

(** A loop that returns: [R] relates its ends and [Q] holds of every
    element, when each step that returns does as much. *)
Lemma forM_ok {A B : Type} (R : A → A → Prop) (Q : A → B → Prop)
    (f : A → B → M A) (bs : list B) (a a' : A) :
  (∀ a, R a a) →
  (∀ a1 a2 a3, R a1 a2 → R a2 a3 → R a1 a3) →
  (∀ a b a', result (f a b) = Ok a' → R a a' ∧ Q a' b) →
  (∀ a a' x, R a a' → Q a x → Q a' x) →
  result (forM bs a f) = Ok a' →
  R a a' ∧ ∀ x, x ∈ bs → Q a' x.
Proof.
  intros Hrefl Htrans Hf Hkeep. revert a.
  induction bs as [|b bs IH]; intros a; cbn [forM].
  - intros [= ->]. split; [done |]. intros x Hx. by apply elem_of_nil in Hx.
  - rewrite result_bind. destruct (result (f a b)) as [a1|] eqn:H1; [| done].
    intros Hr. destruct (Hf a b a1 H1) as [HR1 HQ1].
    destruct (IH a1 Hr) as [HR2 HQ2].
    split; [eauto |]. intros x [-> | Hx]%elem_of_cons; [| by apply HQ2].
    by apply (Hkeep a1).
Qed.

Section FacadeALoad.
Context `{Runtime}.

Lemma LocaleA_AddDomain_no_config_lock (d : disk) (l : LocaleA.Locale)
    (dom : string) (st : lock_state) :
  lock_run MuConfig st (trace (LocaleA.AddDomain d l dom)) = Some st.
Proof.
  rewrite LocaleA_AddDomain_spec.
  destruct (first_existing d (candidatesA_tag l dom)) as [c|].
  { unfold trace; cbn [fst]. rewrite lock_run_app, lock_run_stats.
    by destruct st. }
  destruct (String.length (LocaleA.lang l) <? 2)%nat.
  { unfold trace; cbn [fst]. apply lock_run_stats. }
  destruct (first_existing d (candidatesA_prefix l dom)) as [c|];
    unfold trace; cbn [fst]; rewrite ?lock_run_app, lock_run_stats;
    [by destruct st | done].
Qed.

Lemma same_place_refl (l : LocaleA.Locale) : same_place l l.
Proof. by split_and!. Qed.

Lemma same_place_trans (l1 l2 l3 : LocaleA.Locale) :
  same_place l1 l2 → same_place l2 l3 → same_place l1 l3.
Proof.
  intros (Hp1 & Hl1 & Hd1) (Hp2 & Hl2 & Hd2).
  split_and!; try congruence.
  intros Hne. rewrite Hd2; [by apply Hd1 |]. by rewrite Hd1.
Qed.

Lemma LocaleA_AddDomain_same_place (d : disk) (l l' : LocaleA.Locale)
    (dom : string) :
  result (LocaleA.AddDomain d l dom) = Ok l' → same_place l l'.
Proof.
  intros Hr.
  destruct (LocaleA_AddDomain_outcome d l l' dom Hr)
    as [(_ & _ & ->) | (c & _ & _ & ->)]; [apply same_place_refl |].
  unfold same_place, savedA; cbn. split_and!; try done.
  intros Hne. by rewrite decide_False.
Qed.

Lemma settledA_refl (c : FacadeA.config) : settledA c c.
Proof.
  split_and!; try done.
  - intros key loc Hloc. exists loc. split; [done | apply same_place_refl].
  - intros key loc Hloc Hnone. congruence.
Qed.

Lemma settledA_trans (c1 c2 c3 : FacadeA.config) :
  settledA c1 c2 → settledA c2 c3 → settledA c1 c3.
Proof.
  intros (Hlib1 & Hlang1 & Hdom1 & Hld1 & Hll1 & Hk1 & Hn1)
         (Hlib2 & Hlang2 & Hdom2 & Hld2 & Hll2 & Hk2 & Hn2).
  split_and!; try congruence.
  - intros key loc Hloc.
    destruct (Hk1 key loc Hloc) as (loc2 & Hloc2 & Hs2).
    destruct (Hk2 key loc2 Hloc2) as (loc3 & Hloc3 & Hs3).
    exists loc3. split; [done |]. by eapply same_place_trans.
  - intros key loc3 Hloc3 Hnone.
    destruct (FacadeA.storage c2 !! key) as [loc2|] eqn:Hloc2.
    + destruct (Hn1 key loc2 Hloc2 Hnone) as [Hp Hl].
      destruct (Hk2 key loc2 Hloc2) as (loc3' & Hloc3' & Hp3 & Hl3 & _).
      assert (loc3' = loc3) as -> by congruence. split; congruence.
    + rewrite <- Hlib1. by apply Hn2.
Qed.

Lemma FacadeA_loadLocale_ok (d : disk) (force : bool) (c c' : FacadeA.config)
    (language : string) :
  result (FacadeA.loadLocale d force c language) = Ok c' →
  settledA c c' ∧ is_Some (FacadeA.storage c' !! language).
Proof.
  unfold FacadeA.loadLocale. cbn zeta.
  set (v2 := default (LocaleA.NewLocale (FacadeA.library c) language)
               (FacadeA.storage c !! language)).
  rewrite result_bind.
  destruct (result (LocaleA.AddDomain d v2 (FacadeA.domain c)))
    as [v3|] eqn:H1; [| done].
  rewrite result_bind.
  destruct (result (forM (FacadeA.loadDomains c) v3 _)) as [v4|] eqn:H2;
    [| done].
  intros [= <-].
  apply LocaleA_AddDomain_same_place in H1.
  apply (forM_ok same_place (λ _ _, True)) in H2 as [H2 _];
    [| apply same_place_refl | apply same_place_trans | | done].
  2:{ intros a b a'. destruct (_ || force).
      - intros Hr. split; [| done]. by eapply LocaleA_AddDomain_same_place.
      - intros [= ->]. split; [apply same_place_refl | done]. }
  pose proof (same_place_trans _ _ _ H1 H2) as H24.
  unfold settledA, FacadeA.set_storage.
  cbn [FacadeA.storage FacadeA.library FacadeA.language FacadeA.domain
       FacadeA.loadDomains FacadeA.loadLanguages].
  split; [| by rewrite lookup_insert_eq]. split_and!; try done.
  - intros key loc Hloc. destruct (decide (language = key)) as [-> | Hne].
    + rewrite lookup_insert_eq. exists v4. split; [done |].
      subst v2. by rewrite Hloc in H24.
    + rewrite lookup_insert_ne by done. exists loc.
      split; [done | apply same_place_refl].
  - intros key loc' Hloc' Hnone.
    destruct (decide (language = key)) as [-> | Hne].
    + rewrite lookup_insert_eq in Hloc'. injection Hloc' as <-.
      subst v2. rewrite Hnone in H24. by destruct H24 as (-> & -> & _).
    + rewrite lookup_insert_ne in Hloc' by done. congruence.
Qed.

Lemma FacadeA_loadLocale_no_config_lock (d : disk) (force : bool)
    (c : FacadeA.config) (language : string) (st : lock_state) :
  lock_run MuConfig st (trace (FacadeA.loadLocale d force c language))
    = Some st.
Proof.
  unfold FacadeA.loadLocale. cbn zeta.
  rewrite trace_bind, lock_run_app, LocaleA_AddDomain_no_config_lock.
  cbn [mbind option_bind].
  destruct (result (LocaleA.AddDomain d _ (FacadeA.domain c))) as [v3|];
    [| done].
  rewrite trace_bind, lock_run_app, forM_no_lock.
  - cbn [mbind option_bind]. by destruct (result (forM _ _ _)).
  - intros a b st'. destruct (_ || force); [| done].
    apply LocaleA_AddDomain_no_config_lock.
Qed.

(** What [loadStorage] of the sync.Map facade leaves when it returns. *)
Lemma FacadeA_loadStorage_ok (d : disk) (c c' : FacadeA.config) (force : bool) :
  result (FacadeA.loadStorage d c force) = Ok c' →
  settledA c c' ∧
  ∀ key, key ∈ FacadeA.language c :: FacadeA.loadLanguages c →
    is_Some (FacadeA.storage c' !! key).
Proof.
  unfold FacadeA.loadStorage, emit. rewrite bind_Ok.
  unfold result at 1. cbn [snd]. rewrite result_bind.
  destruct (result (FacadeA.loadLocale d force c (FacadeA.language c)))
    as [c1|] eqn:H1; [| done].
  rewrite result_bind.
  destruct (result (forM (FacadeA.loadLanguages c1) c1 _)) as [c2|] eqn:H2;
    [| done].
  rewrite bind_Ok. intros [= <-].
  apply FacadeA_loadLocale_ok in H1 as [Hs1 Hin1].
  apply (forM_ok settledA (λ a key, is_Some (FacadeA.storage a !! key)))
    in H2 as [Hs2 Hin2];
    [| apply settledA_refl | apply settledA_trans | |].
  - split; [by eapply settledA_trans |].
    intros key [-> | Hkey]%elem_of_cons.
    + destruct Hin1 as [loc Hloc].
      destruct Hs2 as (_ & _ & _ & _ & _ & Hk & _).
      destruct (Hk _ _ Hloc) as (loc' & -> & _). by eexists.
    + apply Hin2. destruct Hs1 as (_ & _ & _ & _ & -> & _). done.
  - intros a b a'. apply FacadeA_loadLocale_ok.
  - intros a a' x (_ & _ & _ & _ & _ & Hk & _) [loc Hloc].
    destruct (Hk _ _ Hloc) as (loc' & -> & _). by eexists.
Qed.

End FacadeALoad.

(** X13. When [Configure] of the sync.Map facade returns, the three
    settings are set, but a Locale that the storage held keeps its path
    and its tag: [LoadOrStore] never replaces it, so the new library
    path reaches only a language that had no Locale, whose Locale is made
    with the new path and the tag of its own key.  Every language of the
    configuration has a Locale afterwards. *)
Theorem syncmap_facade_Configure_keeps_locales `{Runtime}
    (d : disk) (c c' : FacadeA.config) (lib lang dom : string) :
  result (FacadeA.Configure d c lib lang dom) = Ok c' →
  FacadeA.library c' = lib ∧ FacadeA.language c' = lang ∧
  FacadeA.domain c' = dom ∧
  (∀ key loc, FacadeA.storage c !! key = Some loc →
     ∃ loc', FacadeA.storage c' !! key = Some loc' ∧
       LocaleA.path loc' = LocaleA.path loc ∧
       LocaleA.lang loc' = LocaleA.lang loc) ∧
  (∀ key, key ∈ lang :: FacadeA.loadLanguages c →
     ∃ loc', FacadeA.storage c' !! key = Some loc' ∧
       (FacadeA.storage c !! key = None →
        LocaleA.path loc' = lib ∧ LocaleA.lang loc' = SimplifiedLocale key)).
Proof.
  unfold FacadeA.Configure, emit. cbn zeta. rewrite !bind_Ok.
  unfold result at 1 2. cbn [snd].
  intros (Hs & Hin)%FacadeA_loadStorage_ok.
  destruct Hs as (Hlib & Hlang & Hdom & _ & _ & Hk & Hn).
  split_and!; try done.
  - intros key loc Hloc. destruct (Hk key loc Hloc) as (loc' & ? & ? & ? & _).
    by exists loc'.
  - intros key Hkey. destruct (Hin key Hkey) as [loc' Hloc'].
    exists loc'. split; [done |]. intros Hnone. by apply (Hn key).
Qed.

Lemma syncmap_facade_Configure_keeps_locales_witness :
  ∃ c', result (FacadeA.Configure (disk_of []) configA_default
                  "/q" "fr_FR" "default") = Ok c' ∧
    FacadeA.library c' = "/q" ∧
    (∃ loc, FacadeA.storage c' !! "en_US" = Some loc ∧
            LocaleA.path loc = "/p") ∧
    (∃ loc, FacadeA.storage c' !! "fr_FR" = Some loc ∧
            LocaleA.path loc = "/q" ∧ LocaleA.lang loc = "fr_FR").
Proof.
  destruct (result (FacadeA.Configure (disk_of []) configA_default
                      "/q" "fr_FR" "default")) as [c'|] eqn:Hr;
    [| vm_compute in Hr; discriminate].
  destruct (syncmap_facade_Configure_keeps_locales _ _ _ _ _ _ Hr)
    as (Hlib & _ & _ & Hk & Hn).
  exists c'. split; [done |]. split; [done |]. split.
  - destruct (Hk "en_US" _ eq_refl) as (loc & Hloc & Hp & _).
    exists loc. split; [done |]. exact Hp.
  - destruct (Hn "fr_FR") as (loc & Hloc & Hnew); [by left |].
    exists loc. split; [done |]. by apply Hnew.
Defined.

(** X14. The setters of the sync.Map facade and of the package that
    reload ([SetLibrary], [SetLanguage]) keep, when they return, every
    Locale of the storage with its path and its tag, and leave a Locale
    for the current language and every language of [loadLanguages]; a
    Locale that was not there has the library path of the configuration
    as the call leaves it. *)
Theorem syncmap_facade_setters_keep_locales `{Runtime}
    (d : disk) (c c' : FacadeA.config) (s : string) (call : M FacadeA.config) :
  call ∈ [FacadeA.SetLibrary d c s; FacadeA.SetLanguage d c s;
          PackageA.SetLibrary d c s; PackageA.SetLanguage d c s] →
  result call = Ok c' →
  (∀ key loc, FacadeA.storage c !! key = Some loc →
     ∃ loc', FacadeA.storage c' !! key = Some loc' ∧
       LocaleA.path loc' = LocaleA.path loc ∧
       LocaleA.lang loc' = LocaleA.lang loc) ∧
  (∀ key, key ∈ FacadeA.language c' :: FacadeA.loadLanguages c →
     ∃ loc', FacadeA.storage c' !! key = Some loc' ∧
       (FacadeA.storage c !! key = None →
        LocaleA.path loc' = FacadeA.library c' ∧
        LocaleA.lang loc' = SimplifiedLocale key)).
Proof.
  intros Hcall Hr.
  assert (∃ c0, result (FacadeA.loadStorage d c0 true) = Ok c' ∧
                FacadeA.storage c0 = FacadeA.storage c ∧
                FacadeA.loadLanguages c0 = FacadeA.loadLanguages c)
    as (c0 & Hload & Hst & Hll).
  { repeat (apply elem_of_cons in Hcall as [-> | Hcall]);
      [| | | | by apply elem_of_nil in Hcall];
      unfold FacadeA.SetLibrary, FacadeA.SetLanguage, PackageA.SetLibrary,
        PackageA.SetLanguage, emit in Hr; cbn zeta in Hr;
      rewrite !bind_Ok in Hr; unfold result at 1 2 in Hr; cbn [snd] in Hr;
      eexists; (split; [exact Hr | done]). }
  apply FacadeA_loadStorage_ok in Hload as (Hs & Hin).
  destruct Hs as (Hlib & Hlang & _ & _ & _ & Hk & Hn).
  rewrite Hst in *. rewrite Hll, <- Hlang in Hin. split.
  - intros key loc Hloc. destruct (Hk key loc Hloc) as (loc' & ? & ? & ? & _).
    by exists loc'.
  - intros key Hkey. destruct (Hin key Hkey) as [loc' Hloc'].
    exists loc'. split; [done |]. intros Hnone. rewrite Hlib.
    by apply (Hn key).
Qed.

Lemma syncmap_facade_setters_keep_locales_witness :
  ∃ c', result (PackageA.SetLibrary (disk_of []) configA_default "/q")
          = Ok c' ∧
    FacadeA.library c' = "/q" ∧
    ∃ loc, FacadeA.storage c' !! "en_US" = Some loc ∧
           LocaleA.path loc = "/p" ∧ LocaleA.lang loc = "en_US".
Proof.
  destruct (result (PackageA.SetLibrary (disk_of []) configA_default "/q"))
    as [c'|] eqn:Hr; [| vm_compute in Hr; discriminate].
  assert (FacadeA.library c' = "/q") as Hlib.
  { vm_compute in Hr. by injection Hr as <-. }
  destruct (syncmap_facade_setters_keep_locales (disk_of []) configA_default
              c' "/q" (PackageA.SetLibrary (disk_of []) configA_default "/q"))
    as (Hk & _).
  - do 2 apply list_elem_of_further. apply list_elem_of_here.
  - exact Hr.
  - exists c'. split; [done |]. split; [done |].
    destruct (Hk "en_US" _ eq_refl) as (loc & Hloc & Hp & Hl).
    exists loc. by split_and!.
Defined.

(** X15. [loadStorage] of the sync.Map facade takes the read lock of
    the configuration and releases it only on the way out: over its
    trace the lock is free at the end when the call returns and still
    read-held when an [AddDomain] inside it panics. *)
Theorem syncmap_facade_load_lock `{Runtime}
    (d : disk) (c : FacadeA.config) (force : bool) :
  lock_run MuConfig Free (trace (FacadeA.loadStorage d c force)) =
  Some (match result (FacadeA.loadStorage d c force) with
        | Ok _ => Free
        | Panic => ReadHeld
        end).
Proof.
  unfold FacadeA.loadStorage, emit. rewrite bind_Ok.
  unfold trace at 1, result at 1. cbn [fst snd app lock_run].
  rewrite decide_True by done.
  rewrite trace_bind, result_bind, lock_run_app,
    FacadeA_loadLocale_no_config_lock.
  cbn [mbind option_bind].
  destruct (result (FacadeA.loadLocale d force c (FacadeA.language c)))
    as [c1|]; [| done].
  rewrite trace_bind, result_bind, lock_run_app, forM_no_lock
    by (intros; apply FacadeA_loadLocale_no_config_lock).
  cbn [mbind option_bind].
  by destruct (result (forM (FacadeA.loadLanguages c1) c1 _)).
Qed.

(** The panic is reached: a current language of one letter and no
    catalog file. *)
Example syncmap_facade_load_can_panic :
  result (FacadeA.loadStorage (disk_of []) configA_short_tag true) = Panic ∧
  lock_run MuConfig Free
    (trace (FacadeA.loadStorage (disk_of []) configA_short_tag true))
    = Some ReadHeld.
Proof. vm_compute. by split. Qed.

(** What the package's [GetDomain] returns: the default domain of the
    current language's Locale, or the domain of the configuration when
    there is no Locale or its default domain is empty. *)
Lemma package_GetDomain_result `{Runtime} (g : FacadeA.config) :
  result (PackageA.GetDomain g) =
  Ok (match FacadeA.storage g !! FacadeA.language g with
      | Some v2 => if decide (LocaleA.defaultDomain v2 = "")
                   then FacadeA.domain g else LocaleA.defaultDomain v2
      | None => FacadeA.domain g
      end).
Proof.
  unfold PackageA.GetDomain, FacadeA.GetLanguage, LocaleA.GetDomain, emit.
  destruct (FacadeA.storage g !! FacadeA.language g) as [v2|] eqn:Hv;
    cbn; rewrite Hv; reflexivity.
Qed.

(** X16. The package's [SetDomain] and [GetDomain] agree: when the
    current language has a Locale, [SetDomain] of a non-empty name that
    returns is followed by a [GetDomain] that returns that name, and by
    a configuration whose domain is that name.  The name goes to every
    Locale as its default domain, and the reload that follows does not
    change a default domain that is set. *)
Theorem package_SetDomain_then_GetDomain `{Runtime}
    (d : disk) (g g' : FacadeA.config) (dom : string) :
  dom ≠ "" →
  is_Some (FacadeA.storage g !! FacadeA.language g) →
  result (PackageA.SetDomain d g dom) = Ok g' →
  result (PackageA.GetDomain g') = Ok dom ∧ FacadeA.domain g' = dom.
Proof.
  intros Hdom [loc Hloc]. unfold PackageA.SetDomain, emit. cbn zeta.
  rewrite !bind_Ok. unfold result at 1 2. cbn [snd]. rewrite result_bind.
  destruct (result (forM _ _ _)) as [m|] eqn:Hrange; [| done].
  intros (Hs & _)%FacadeA_loadStorage_ok.
  apply (forM_ok
    (λ m m' : gmap string LocaleA.Locale,
       ∀ key, (∃ l, m !! key = Some l ∧ LocaleA.defaultDomain l = dom) →
              ∃ l, m' !! key = Some l ∧ LocaleA.defaultDomain l = dom)
    (λ m kv, ∃ l, m !! kv.1 = Some l ∧ LocaleA.defaultDomain l = dom))
    in Hrange as [_ Hall]; [| done | by eauto | |].
  2:{ intros a [k v] a'. unfold LocaleA.SetDomain, emit.
      rewrite !bind_Ok. unfold result. cbn [snd fst]. intros [= <-]. split.
      - intros key (l & Hl & Hd). destruct (decide (k = key)) as [-> | Hne].
        + rewrite lookup_insert_eq. by eexists.
        + rewrite lookup_insert_ne by done. eauto.
      - rewrite lookup_insert_eq. by eexists. }
  2:{ intros a a' x HR. apply HR. }
  destruct (Hall (FacadeA.language g, loc)) as (l1 & Hl1 & Hd1).
  { by apply elem_of_map_to_list. }
  destruct Hs as (_ & Hlang & Hdomain & _ & _ & Hk & _).
  cbn [FacadeA.set_storage FacadeA.set_domain FacadeA.storage
       FacadeA.language FacadeA.domain] in Hlang, Hdomain, Hk.
  cbn [fst] in Hl1. destruct (Hk _ _ Hl1) as (l2 & Hl2 & _ & _ & Hd2).
  split; [| done].
  assert (LocaleA.defaultDomain l2 = dom) as Hd by (rewrite Hd2; congruence).
  rewrite package_GetDomain_result, Hlang, Hl2, Hd.
  by rewrite decide_False.
Qed.

Lemma package_SetDomain_then_GetDomain_witness :
  ∃ g', result (PackageA.SetDomain (disk_of ["/p/en_US/other.po"])
                  configA_default "other") = Ok g' ∧
    result (PackageA.GetDomain g') = Ok "other".
Proof.
  destruct (result (PackageA.SetDomain (disk_of ["/p/en_US/other.po"])
                      configA_default "other")) as [g'|] eqn:Hr;
    [| vm_compute in Hr; discriminate].
  exists g'. split; [done |].
  apply (package_SetDomain_then_GetDomain
           (disk_of ["/p/en_US/other.po"]) configA_default g' "other").
  - discriminate.
  - by eexists.
  - exact Hr.
Defined.

(** X17. Without a Locale for the current language the sync.Map facade
    answers every lookup with the empty string, not with the string
    asked for: [GetND] and [GetNDC] skip their body, and the package's
    [Get] reaches the same branch.  Nothing is probed, parsed or stored
    and the configuration is as it was. *)
Theorem syncmap_facade_lookup_without_locale `{Runtime}
    (d : disk) (c : FacadeA.config) (dom str plural ctx : string) (n : Z)
    (vars : list gval) :
  FacadeA.storage c !! FacadeA.language c = None →
  result (FacadeA.GetND d c dom str plural n vars) = Ok (c, "") ∧
  result (FacadeA.GetNDC d c dom str plural n ctx vars) = Ok (c, "") ∧
  result (PackageA.Get d c str vars) = Ok (c, "") ∧
  io_events (FacadeA.GetND d c dom str plural n vars) = [] ∧
  io_events (PackageA.Get d c str vars) = [] ∧
  store_events (trace (PackageA.Get d c str vars)) = [].
Proof.
  intros Hnone.
  unfold PackageA.Get, PackageA.GetDomain, PackageA.GetD, PackageA.GetND,
    FacadeA.GetLanguage, FacadeA.GetND, FacadeA.GetNDC, io_events, emit.
  cbn. rewrite !Hnone. cbn. by split_and!.
Qed.

Lemma syncmap_facade_lookup_without_locale_witness :
  result (PackageA.Get (disk_of ["/p/de_DE/default.po"]) configA_no_locale
            "Hello" []) = Ok (configA_no_locale, "").
Proof.
  apply (syncmap_facade_lookup_without_locale
           (disk_of ["/p/de_DE/default.po"]) configA_no_locale
           "default" "Hello" "Hello" "" 1 []).
  reflexivity.
Defined.

(** ** Marshalling: errors and what is kept *)

Section MarshalMore.
Context `{LocaleA.Gob}.

Lemma unmarshal_range_any (kvs : list (string * list Byte.byte))
    (l : LocaleA.Locale) :
  ∃ l' err, result (LocaleA.unmarshal_range kvs l) = Ok (l', err) ∧
    List.filter is_io (trace (LocaleA.unmarshal_range kvs l)) = [] ∧
    LocaleA.path l' = LocaleA.path l ∧
    LocaleA.lang l' = LocaleA.lang l ∧
    LocaleA.defaultDomain l' = LocaleA.defaultDomain l ∧
    (∀ k, k ∉ kvs.*1 → LocaleA.Domains l' !! k = LocaleA.Domains l !! k) ∧
    (∀ k, is_Some (LocaleA.Domains l !! k) →
          is_Some (LocaleA.Domains l' !! k)) ∧
    (err = false → ∀ k, k ∈ kvs.*1 →
       ∃ t, LocaleA.Domains l' !! k = Some (Some t)).
Proof.
  revert l. induction kvs as [|[k0 v0] kvs IH]; intros l;
    cbn [LocaleA.unmarshal_range].
  - exists l, false. split_and!; try done. intros _ k Hk.
    by apply elem_of_nil in Hk.
  - destruct (LocaleA.gob_Decode_translator v0) as [te|].
    2:{ exists l, true. by split_and!. }
    destruct (IH (LocaleA.set_Domains l
                    (<[k0 := Some (LocaleA.GetTranslator te)]>
                       (LocaleA.Domains l))))
      as (l' & err & Hrun & Hio & Hp & Hl & Hdd & Hout & Hkeep & Hin).
    exists l', err. unfold emit. rewrite bind_Ok.
    unfold trace at 1, result at 1. cbn [fst snd].
    split_and!; try done.
    + intros k Hk. cbn in Hk. apply not_elem_of_cons in Hk as [Hne Hk].
      rewrite (Hout k Hk). cbn. by rewrite lookup_insert_ne.
    + intros k Hk. apply Hkeep. cbn.
      destruct (decide (k0 = k)) as [-> | Hne].
      * by rewrite lookup_insert_eq.
      * by rewrite lookup_insert_ne.
    + intros Herr k Hk. cbn in Hk. apply elem_of_cons in Hk as [-> | Hk].
      * destruct (decide (k0 ∈ kvs.*1)) as [Hin0 | Hout0]; [by apply Hin |].
        rewrite (Hout k0 Hout0). cbn. rewrite lookup_insert_eq. by eexists.
      * by apply Hin.
Qed.

Lemma marshal_range_any (kvs : list (string * option Translator.t))
    (acc : gmap string (list Byte.byte)) :
  trace (LocaleA.marshal_range kvs acc) = [] ∧
  ((result (LocaleA.marshal_range kvs acc) = Panic ∧
    ∃ k, (k, None) ∈ kvs) ∨
   ∃ acc', result (LocaleA.marshal_range kvs acc) = Ok acc' ∧
     ∀ k b, acc' !! k = Some b →
       acc !! k = Some b ∨
       ∃ t, (k, Some t) ∈ kvs ∧ (Translator.MarshalBinary t).1 = b).
Proof.
  revert acc. induction kvs as [|[k0 [t0|]] kvs IH]; intros acc;
    cbn [LocaleA.marshal_range LocaleA.assert_Translator].
  - split; [done |]. right. exists acc. split; [done |]. by left.
  - rewrite bind_mret.
    destruct (Translator.MarshalBinary t0) as [b0 err] eqn:Hm.
    assert (∀ k b, <[k0 := b0]> acc !! k = Some b →
              acc !! k = Some b ∨
              ∃ t, (k, Some t) ∈ (k0, Some t0) :: kvs ∧
                   (Translator.MarshalBinary t).1 = b) as Hstep.
    { intros k b. destruct (decide (k0 = k)) as [-> | Hne].
      - rewrite lookup_insert_eq. intros [= <-]. right. exists t0.
        split; [by left | by rewrite Hm].
      - rewrite lookup_insert_ne by done. by left. }
    destruct err.
    { split; [done |]. right. by exists (<[k0 := b0]> acc). }
    destruct (IH (<[k0 := b0]> acc)) as [Ht [[Hr [k Hk]] | (acc' & Hr & Hacc)]].
    + split; [done |]. left. split; [done |]. exists k. by right.
    + split; [done |]. right. exists acc'. split; [done |].
      intros k b Hkb. destruct (Hacc k b Hkb) as [Hold | (t & Hin & Hb)].
      * by apply Hstep.
      * right. exists t. split; [by right | done].
  - split; [done |]. left. split; [done |]. exists k0. by left.
Qed.

End MarshalMore.

(** X18. [UnmarshalBinary] never panics and touches no file.  A blob
    that does not decode leaves the Locale as it was.  A blob that
    decodes overwrites path, tag and default domain before any catalog
    is decoded, so they are overwritten also when the call returns an
    error.  The call merges: it never removes a domain of the receiver,
    it leaves every domain that the blob does not name, and without an
    error every domain of the blob holds a catalog. *)
Theorem UnmarshalBinary_merges `{LocaleA.Gob}
    (l : LocaleA.Locale) (data : list Byte.byte) :
  ∃ l' err, result (LocaleA.UnmarshalBinary l data) = Ok (l', err) ∧
    io_events (LocaleA.UnmarshalBinary l data) = [] ∧
    (∀ k, is_Some (LocaleA.Domains l !! k) →
          is_Some (LocaleA.Domains l' !! k)) ∧
    match LocaleA.gob_Decode data with
    | None => l' = l ∧ err = true
    | Some obj =>
        LocaleA.path l' = LocaleA.Path obj ∧
        LocaleA.lang l' = LocaleA.Lang obj ∧
        LocaleA.defaultDomain l' = LocaleA.DefaultDomain obj ∧
        (∀ k, LocaleA.EncDomains obj !! k = None →
              LocaleA.Domains l' !! k = LocaleA.Domains l !! k) ∧
        (err = false → ∀ k, is_Some (LocaleA.EncDomains obj !! k) →
           ∃ t, LocaleA.Domains l' !! k = Some (Some t))
    end.
Proof.
  unfold LocaleA.UnmarshalBinary, io_events.
  destruct (LocaleA.gob_Decode data) as [obj|].
  2:{ exists l, true. by split_and!. }
  destruct (unmarshal_range_any (map_to_list (LocaleA.EncDomains obj))
              (LocaleA.mkLocale (LocaleA.Path obj) (LocaleA.Lang obj)
                 (LocaleA.Domains l) (LocaleA.DefaultDomain obj)))
    as (l' & err & Hrun & Hio & Hp & Hl & Hdd & Hout & Hkeep & Hin).
  exists l', err. split_and!; try done.
  - intros k Hnone. rewrite Hout; [done |].
    intros [[k' v] [-> Hkv%elem_of_map_to_list]]%list_elem_of_fmap.
    cbn in Hnone. congruence.
  - intros Herr k [v Hv]. apply Hin; [done |].
    apply list_elem_of_fmap. exists (k, v). split; [done |].
    by apply elem_of_map_to_list.
Qed.

(** The error after the fields were overwritten is reached: the Locale
    comes back with the path and tag of the blob and its own catalog. *)
Example UnmarshalBinary_half_done :
  ∃ l', @LocaleA.UnmarshalBinary gob_half locale_es [Byte.x00]
          = ([], Ok (l', true)) ∧
    LocaleA.path l' = "/q" ∧ LocaleA.lang l' = "fr" ∧
    LocaleA.defaultDomain l' = "menu" ∧
    LocaleA.Domains l' = LocaleA.Domains locale_es.
Proof. eexists. split; [vm_compute; reflexivity |]. by split_and!. Qed.

(** X19. [MarshalBinary] touches no file and stores nothing, and it
    panics only when a domain holds a nil Translator.  When it returns,
    the blob and the error are the encoder's for an object with the
    path, tag and default domain of the Locale; every domain of that
    object is a domain of the Locale with the bytes its catalog
    returned.  The error of a catalog is never returned: it only ends
    the walk over the domains. *)
Theorem MarshalBinary_reports_only_the_encoder `{LocaleA.Gob}
    (l : LocaleA.Locale) :
  trace (LocaleA.MarshalBinary l) = [] ∧
  ((result (LocaleA.MarshalBinary l) = Panic ∧
    ∃ k, LocaleA.Domains l !! k = Some None) ∨
   ∃ doms,
     result (LocaleA.MarshalBinary l) =
     Ok (LocaleA.gob_Encode
           (LocaleA.mkLocaleEncoding (LocaleA.path l) (LocaleA.lang l) doms
              (LocaleA.defaultDomain l))) ∧
     ∀ k b, doms !! k = Some b →
       ∃ t, LocaleA.Domains l !! k = Some (Some t) ∧
            (Translator.MarshalBinary t).1 = b).
Proof.
  unfold LocaleA.MarshalBinary.
  destruct (marshal_range_any (map_to_list (LocaleA.Domains l)) ∅)
    as [Ht [[Hr [k Hk]] | (doms & Hr & Hdoms)]].
  - rewrite trace_bind, result_bind, Ht, Hr. split; [done |]. left.
    split; [done |]. exists k. by apply elem_of_map_to_list.
  - rewrite trace_bind, result_bind, Ht, Hr. split; [done |]. right.
    exists doms. split; [done |]. intros k b Hkb.
    destruct (Hdoms k b Hkb) as [Hempty | (t & Hin & Hb)]; [done |].
    exists t. split; [| done]. by apply elem_of_map_to_list.
Qed.

(** A catalog error that is not returned. *)
Example MarshalBinary_swallows_catalog_error :
  @LocaleA.MarshalBinary gob_half
    (LocaleA.mkLocale "/p" "es" {["default" := Some tr_failing]} "default")
  = ([], Ok ([], false)).
Proof. vm_compute. reflexivity. Qed.
